(** * untangling-callbacks: the file with the most non-empty lines

    A shallow embedding of [find-max-file-in-directory.js],
    [lib/load-files.js] and the [countNonEmptyLines] listing of the
    article, with the properties of the pipeline

      readdir -> loadFiles -> countNonEmptyLines -> indexOfMax -> filenames[i]

    Node-style callbacks [(err, value)] are continuations taking a sum
    [error + value]; every function returns the log of what happened
    (reads issued, collaborators called, callbacks fired), so that the
    statements can talk about which reads were issued and what the
    caller's callback received. *)

From Stdlib Require Import ZArith Ascii String.
From stdpp Require Import base list strings.

Local Open Scope Z_scope.
Local Open Scope string_scope.
Local Open Scope list_scope.

(** ** Line counting (the [countNonEmptyLines] listing) *)

(** The newline character, ['\n']. *)
Definition newline : ascii := "010"%char.

(** The carriage return, ['\r']. *)
Definition carriage_return : ascii := "013"%char.

(** [content.split(sep)] for a one-character separator: the segments
    between the occurrences of [sep], in order.  The empty string
    splits into one empty segment. *)
Fixpoint split (sep : ascii) (content : string) : list string :=
  match content with
  | EmptyString => [EmptyString]
  | String c rest =>
      if Ascii.eqb c sep then EmptyString :: split sep rest
      else match split sep rest with
           | seg :: segs => String c seg :: segs
           | [] => [String c EmptyString]
           end
  end.

(** JavaScript's [Boolean] on a string: false exactly on [""]. *)
Definition Boolean (s : string) : bool :=
  match s with
  | EmptyString => false
  | String _ _ => true
  end.

(** [content.split('\n').filter(Boolean).length] *)
Definition countNonEmptyLines (content : string) : Z :=
  Z.of_nat (length (List.filter Boolean (split newline content))).

(** The count in the words of the specification: the number of
    segments whose length is strictly greater than zero. *)
Definition count_long_segments (segs : list string) : Z :=
  Z.of_nat (length (List.filter (fun seg => (0 <? String.length seg)%nat) segs)).

(** [segs.join(sep)], the inverse of [split]. *)
Fixpoint join (sep : ascii) (segs : list string) : string :=
  match segs with
  | [] => EmptyString
  | [seg] => seg
  | seg :: rest => seg ++ String sep (join sep rest)
  end.

(** No occurrence of [sep] in [s]. *)
Fixpoint free_of (sep : ascii) (s : string) : bool :=
  match s with
  | EmptyString => true
  | String c rest => negb (Ascii.eqb c sep) && free_of sep rest
  end.

(** ** Values that cross the callbacks *)

(** A failure reported by the file system: an opaque error object.
    Every such object is truthy, so [if (err)] is the test "is there an
    error". *)
Record error := Error { code : string; syscall : string; target : string }.

(** What the caller's callback receives as its second argument:
    [null], a path, or [undefined] (an index outside the array). *)
Inductive result :=
| Null
| Undefined
| Path (p : string).

(** [filenames[i]] *)
Definition at_index (filenames : list string) (i : nat) : result :=
  match filenames !! i with
  | Some p => Path p
  | None => Undefined
  end.

(** What an invocation does, in order. *)
Inductive event :=
| Readdir (dir : string)                (* fs.readdir issued *)
| LoadFiles (filenames : list string)   (* loadFiles entered *)
| ReadFile (filename : string)          (* fs.readFile issued *)
| IndexOfMax (numbers : list Z)         (* indexOfMax called *)
| Thrown                                (* indexOfMax raised, nobody catches *)
| Callback (outcome : error + result).  (* the caller's callback fired *)

Definition log := list event.

(** The two primitives of [fs] the program uses. *)
Record filesystem := {
  readdir : string -> error + list string;
  readFile : string -> error + string
}.

(** An asynchronous operation that has been started: the event of
    starting it, and what its callback will receive once it settles. *)
Record started (A : Type) := Started { issued : event; settles : error + A }.
Arguments Started {A} _ _.
Arguments issued {A} _.
Arguments settles {A} _.

(** ** [lib/index-of-max.js] *)

(** First position of [x] in [numbers]. *)
Fixpoint indexOf (x : Z) (numbers : list Z) : option nat :=
  match numbers with
  | [] => None
  | y :: rest => if (y =? x)%Z then Some O else S <$> indexOf x rest
  end.

(** The greatest value of [x :: rest]. *)
Definition greatest (x : Z) (rest : list Z) : Z := fold_left Z.max rest x.

(** Modelled from the spec: [lib/index-of-max.js], required by
    [find-max-file-in-directory.js], whose text is missing.  The index
    of the element with the greatest value,
    the lowest index among equal maxima; on an empty sequence a failure
    ([None], an error raised to the caller) and no index. *)
Definition indexOfMax (numbers : list Z) : option nat :=
  match numbers with
  | [] => None
  | x :: rest => indexOf (greatest x rest) numbers
  end.

(** ** [map-async], as [lib/load-files.js] uses it *)

(** The fan-in: reads settle in the order [order] (positions in the
    input); each success is stored in the slot of its own position; the
    callback fires with all results once every slot is filled, or with
    the first failure that is observed, after which nothing more is
    delivered.  When [order] runs out with a slot still empty, reads are
    still in flight and the callback has not fired. *)
Fixpoint fan_in {B : Type} (ops : list (error + B)) (callback : error + list B -> log)
    (order : list nat) (slots : list (option B)) : log :=
  match mapM id slots with
  | Some results => callback (inr results)
  | None =>
      match order with
      | [] => []
      | k :: later =>
          match ops !! k with
          | None => fan_in ops callback later slots
          | Some (inl err) => callback (inl err)
          | Some (inr value) => fan_in ops callback later (<[k := Some value]> slots)
          end
      end
  end.

(** Modelled from the spec: the package [map-async], required by
    [lib/load-files.js], whose text is missing.
    [map(list, iterator, callback)]
    starts [iterator] on every item, in input order, and joins the
    results by position ([fan_in]), independently of the order in which
    the operations settle. *)
Definition mapAsync {A B : Type} (order : list nat) (items : list A)
    (iterator : A -> started B) (callback : error + list B -> log) : log :=
  let ops := iterator <$> items in
  (issued <$> ops) ++
  fan_in (settles <$> ops) callback order (replicate (length items) None).

(** ** [lib/load-files.js] *)

Definition load (fs : filesystem) (filename : string) : started string :=
  Started (ReadFile filename) (readFile fs filename).

Definition loadFiles (fs : filesystem) (order : list nat) (filenames : list string)
    (callback : error + list string -> log) : log :=
  LoadFiles filenames :: mapAsync order filenames (load fs) callback.

(** ** [find-max-file-in-directory.js] *)

Definition findMaxFile (fs : filesystem) (order : list nat) (filenames : list string)
    (callback : error + result -> log) : log :=
  if (length filenames =? 0)%nat then callback (inr Null)
  else
    loadFiles fs order filenames (fun loaded =>
      match loaded with
      | inl err => callback (inl err)
      | inr results =>
          let lineCounts := countNonEmptyLines <$> results in
          IndexOfMax lineCounts ::
          match indexOfMax lineCounts with
          | None => [Thrown]
          | Some i => callback (inr (at_index filenames i))
          end
      end).

Definition findMaxFileInDirectory (fs : filesystem) (path_join : string -> string -> string)
    (order : list nat) (dir : string) (callback : error + result -> log) : log :=
  Readdir dir ::
  match readdir fs dir with
  | inl err => callback (inl err)
  | inr filenames =>
      let prependDir := fun filename => path_join dir filename in
      findMaxFile fs order (prependDir <$> filenames) callback
  end.

(** The caller: a callback that records what it is given. *)
Definition report (outcome : error + result) : log := [Callback outcome].

(** Number of [fs.readFile] calls in a log. *)
Definition is_read (e : event) : bool :=
  match e with ReadFile _ => true | _ => false end.

Definition reads_issued (l : log) : nat := length (List.filter is_read l).

(** ** Predicates used in the statements *)

(** Every read of a batch of [n] settles exactly once: the order in
    which they settle is a permutation of the positions. *)
Definition settle_order (n : nat) (order : list nat) : Prop :=
  order ≡ₚ seq 0 n.

(** [contents] is what the reads of [filenames] deliver, position by
    position, all of them succeeding. *)
Definition loaded (fs : filesystem) (filenames contents : list string) : Prop :=
  Forall2 (fun p c => readFile fs p = inr c) filenames contents.

(** The slots of a fan-in hold nothing but results of their own
    position. *)
Definition slots_of {B : Type} (ops : list (error + B)) (slots : list (option B)) : Prop :=
  length slots = length ops /\
  forall k v, slots !! k = Some (Some v) -> ops !! k = Some (inr v).

(** The strings of one line feed and of one carriage return. *)
Definition LF : string := String newline EmptyString.
Definition CR : string := String carriage_return EmptyString.

(** ** A sample directory *)

(** [path.join] on two plain segments. *)
Definition posix_join (dir filename : string) : string :=
  (dir ++ "/" ++ filename)%string.

Definition ENOENT (call path : string) : error := Error "ENOENT" call path.

(** [docs/] holds [a.txt] (3 non-empty lines), [b.txt] and [c.txt]
    (5 each); [notes/] holds [x.txt] and [y.txt]; [gone/] lists a file
    that can no longer be read; [empty/] holds nothing. *)
Definition sample_fs : filesystem := {|
  readdir dir :=
    if String.eqb dir "docs" then inr ["a.txt"; "b.txt"; "c.txt"]
    else if String.eqb dir "notes" then inr ["x.txt"; "y.txt"]
    else if String.eqb dir "gone" then inr ["a.txt"; "lost.txt"]
    else if String.eqb dir "empty" then inr []
    else inl (ENOENT "scandir" dir);
  readFile path :=
    if String.eqb path "docs/a.txt" then inr ("1" ++ LF ++ "2" ++ LF ++ "3" ++ LF)%string
    else if String.eqb path "docs/b.txt"
      then inr ("1" ++ LF ++ "2" ++ LF ++ LF ++ "3" ++ LF ++ "4" ++ LF ++ "5")%string
    else if String.eqb path "docs/c.txt"
      then inr ("v" ++ LF ++ "w" ++ LF ++ "x" ++ LF ++ "y" ++ LF ++ "z" ++ LF)%string
    else if String.eqb path "notes/x.txt" then inr ("1" ++ LF ++ "2" ++ LF ++ "3")%string
    else if String.eqb path "notes/y.txt" then inr ("1" ++ LF ++ LF ++ "3")%string
    else if String.eqb path "gone/a.txt" then inr ("1" ++ LF)%string
    else inl (ENOENT "open" path)
|}.

(** The paths of [docs/], and what reading them delivers. *)
Definition docs_files : list string :=
  posix_join "docs" <$> ["a.txt"; "b.txt"; "c.txt"].

Definition docs_contents : list string :=
  [ ("1" ++ LF ++ "2" ++ LF ++ "3" ++ LF)%string;
    ("1" ++ LF ++ "2" ++ LF ++ LF ++ "3" ++ LF ++ "4" ++ LF ++ "5")%string;
    ("v" ++ LF ++ "w" ++ LF ++ "x" ++ LF ++ "y" ++ LF ++ "z" ++ LF)%string ].

Definition gone_files : list string :=
  posix_join "gone" <$> ["a.txt"; "lost.txt"].

(** The same files, each with one more newline at its end. *)
Definition with_trailing_newline (fs : filesystem) : filesystem := {|
  readdir := readdir fs;
  readFile path :=
    match readFile fs path with
    | inl err => inl err
    | inr content => inr (content ++ LF)%string
    end
|}.

(** ** The first listing of the article: nested callbacks *)

(** The counting loop of the first listing:
    [for (var i = 0; i < lines.length; i += 1)
       { if (lines[i].length > 0) { count += 1; } }] *)
Definition loop_step (lines : list string) (count : Z) (i : nat) : Z :=
  match lines !! i with
  | Some line => if (0 <? String.length line)%nat then count + 1 else count
  | None => count
  end.

(** [var lines = res.split('\n'); var count = 0; for ...] *)
Definition countLoop (res : string) : Z :=
  let lines := split newline res in
  fold_left (loop_step lines) (seq 0 (length lines)) 0.

Module FirstListing.

(** The variables the read callbacks share. *)
Record tally := Tally { maxLines : Z; maxFilename : result; remaining : Z }.

(** What a run leaves behind: the log, and the name of the unbound
    variable when a [ReferenceError] ended it. *)
Record run := Run { events : log; uncaught : option string }.

(** A successful read of [filename] with [count] non-empty lines:
    [if (count > maxLines) { maxFilename = filename; maxLines = count; }
     remaining -= 1;] *)
Definition record_count (filename : string) (count : Z) (st : tally) : tally :=
  let st1 :=
    if (count >? maxLines st)%Z
    then Tally count (Path filename) (remaining st)
    else st in
  Tally (maxLines st1) (maxFilename st1) (remaining st1 - 1).

(** The callback of [fs.readFile] for [filename]. *)
Definition on_read (callback : error + result -> log) (filename : string)
    (outcome : error + string) (st : tally) : log * tally :=
  match outcome with
  | inl err => (callback (inl err), st)
  | inr res =>
      let st' := record_count filename (countLoop res) st in
      (if (remaining st' =? 0)%Z then callback (inr (maxFilename st')) else [], st')
  end.

(** The reads of [paths] settle in the order [order]; each one runs its
    callback on the shared variables. *)
Fixpoint settle (fs : filesystem) (callback : error + result -> log)
    (paths : list string) (order : list nat) (st : tally) : log :=
  match order with
  | [] => []
  | k :: later =>
      match paths !! k with
      | None => settle fs callback paths later st
      | Some filename =>
          let (fired, st') := on_read callback filename (readFile fs filename) st in
          fired ++ settle fs callback paths later st'
      end
  end.

(** The listing binds its parameter as [directory] and joins the paths
    with [dir], which it does not declare: [dir] is whatever the enclosing
    scope binds it to, if anything. *)
Definition findMaxFileInDirectory (fs : filesystem) (path_join : string -> string -> string)
    (dir : option string) (order : list nat) (directory : string)
    (callback : error + result -> log) : run :=
  match readdir fs directory with
  | inl err => Run (Readdir directory :: callback (inl err)) None
  | inr filenames =>
      match dir with
      | None =>
          match filenames with
          | [] => Run [Readdir directory] None
          | _ :: _ => Run [Readdir directory] (Some "dir")
          end
      | Some d =>
          let paths := path_join d <$> filenames in
          Run (Readdir directory :: (ReadFile <$> paths) ++
               settle fs callback paths order
                 (Tally 0 Null (Z.of_nat (length filenames))))
              None
      end
  end.

End FirstListing.

(** The errors of the reads that fail, in the order in which they
    settle. *)
Definition failed_reads (fs : filesystem) (paths : list string) (order : list nat) : list error :=
  omap (fun k =>
          match paths !! k with
          | Some p => match readFile fs p with inl err => Some err | inr _ => None end
          | None => None
          end) order.

(** The read at position [k] is one that succeeds. *)
Definition read_ok (fs : filesystem) (paths : list string) (k : nat) : bool :=
  match paths !! k with
  | Some p => match readFile fs p with inr _ => true | inl _ => false end
  | None => false
  end.

(** The read at position [k] delivers a text of [n] non-empty lines. *)
Definition counted (fs : filesystem) (paths : list string) (k : nat) (n : Z) : Prop :=
  exists p c, paths !! k = Some p /\ readFile fs p = inr c /\ countNonEmptyLines c = n.

(** What the shared variables of the first listing hold once the reads
    at the positions [settled] have succeeded, in that order:
    [maxLines] bounds every count seen, and [maxFilename] is [null]
    while no positive count was seen, and otherwise the path of the
    first read that delivered [maxLines] lines. *)
Definition tally_of (fs : filesystem) (paths : list string) (settled : list nat)
    (st : FirstListing.tally) : Prop :=
  0 <= FirstListing.maxLines st
  /\ (forall k n, k ∈ settled -> counted fs paths k n -> n <= FirstListing.maxLines st)
  /\ match FirstListing.maxFilename st with
     | Null => FirstListing.maxLines st = 0
     | Undefined => False
     | Path q =>
         0 < FirstListing.maxLines st
         /\ exists pre k post,
             settled = pre ++ k :: post
             /\ paths !! k = Some q
             /\ counted fs paths k (FirstListing.maxLines st)
             /\ forall j n, j ∈ pre -> counted fs paths j n ->
                   n < FirstListing.maxLines st
     end.

(** What reading the files of [notes/] delivers. *)
Definition notes_contents : list string :=
  [ ("1" ++ LF ++ "2" ++ LF ++ "3")%string; ("1" ++ LF ++ LF ++ "3")%string ].

(** A directory of two files without a single non-empty line. *)
Definition blank_fs : filesystem := {|
  readdir dir := inr ["p"; "q"];
  readFile path := inr (LF ++ LF)%string
|}.

(** * Properties *)

(** ** Line counting *)

Lemma split_not_nil sep content : split sep content <> [].
Proof.
  destruct content as [|c rest]; simpl; [discriminate|].
  destruct (Ascii.eqb c sep); [discriminate|].
  destruct (split sep rest); discriminate.
Qed.

Lemma split_snoc_sep sep content :
  split sep (content ++ String sep EmptyString) = split sep content ++ [EmptyString].
Proof.
  induction content as [|c rest IH]; simpl.
  - rewrite Ascii.eqb_refl. reflexivity.
  - rewrite IH. destruct (Ascii.eqb c sep); [reflexivity|].
    pose proof (split_not_nil sep rest) as Hne.
    destruct (split sep rest) as [|seg segs]; [congruence|reflexivity].
Qed.

Lemma split_free sep seg : free_of sep seg = true -> split sep seg = [seg].
Proof.
  induction seg as [|c rest IH]; simpl; [reflexivity|].
  intros [Hc Hrest]%andb_prop. apply negb_true_iff in Hc. rewrite Hc.
  rewrite (IH Hrest). reflexivity.
Qed.

Lemma split_app_sep sep seg tail :
  free_of sep seg = true ->
  split sep (seg ++ String sep tail) = seg :: split sep tail.
Proof.
  induction seg as [|c rest IH]; simpl.
  - intros _. rewrite Ascii.eqb_refl. reflexivity.
  - intros [Hc Hrest]%andb_prop. apply negb_true_iff in Hc. rewrite Hc.
    rewrite (IH Hrest). reflexivity.
Qed.

(** [split] undoes [join] on separator-free segments: the segments of
    a text are determined by the text. *)
Lemma split_join sep segs :
  segs <> [] ->
  Forall (fun seg => free_of sep seg = true) segs ->
  split sep (join sep segs) = segs.
Proof.
  induction segs as [|seg rest IH]; [congruence|].
  intros _ Hfree. inversion Hfree as [|? ? Hseg Hrest]; subst.
  destruct rest as [|seg' rest'].
  - simpl. apply split_free, Hseg.
  - change (join sep (seg :: seg' :: rest'))
      with (seg ++ String sep (join sep (seg' :: rest')))%string.
    rewrite split_app_sep by exact Hseg.
    rewrite IH; [reflexivity|discriminate|exact Hrest].
Qed.

Lemma join_split sep content : join sep (split sep content) = content.
Proof.
  induction content as [|c rest IH]; simpl; [reflexivity|].
  destruct (Ascii.eqb_spec c sep) as [->|Hne].
  - pose proof (split_not_nil sep rest) as Hnil.
    destruct (split sep rest) as [|seg segs] eqn:E; [congruence|].
    change (join sep (EmptyString :: seg :: segs))
      with (String sep (join sep (seg :: segs))).
    rewrite IH. reflexivity.
  - pose proof (split_not_nil sep rest) as Hnil.
    destruct (split sep rest) as [|seg segs] eqn:E; [congruence|].
    destruct segs as [|seg' segs'].
    + simpl in *. rewrite IH. reflexivity.
    + change (join sep (String c seg :: seg' :: segs'))
        with (String c (seg ++ String sep (join sep (seg' :: segs'))))%string.
      change (join sep (seg :: seg' :: segs'))
        with (seg ++ String sep (join sep (seg' :: segs')))%string in IH.
      rewrite IH. reflexivity.
Qed.

Lemma split_segments_free sep content :
  Forall (fun seg => free_of sep seg = true) (split sep content).
Proof.
  induction content as [|c rest IH]; simpl.
  - constructor; [reflexivity|constructor].
  - destruct (Ascii.eqb c sep) eqn:Hc.
    + constructor; [reflexivity|exact IH].
    + destruct (split sep rest) as [|seg segs].
      * constructor; [simpl; rewrite Hc; reflexivity|constructor].
      * inversion IH; subst. constructor; [simpl; rewrite Hc|]; assumption.
Qed.

Lemma Boolean_length seg : Boolean seg = (0 <? String.length seg)%nat.
Proof. destruct seg; reflexivity. Qed.

Lemma filter_Boolean_long segs :
  List.filter Boolean segs =
  List.filter (fun seg => (0 <? String.length seg)%nat) segs.
Proof.
  induction segs as [|seg rest IH]; simpl; [reflexivity|].
  rewrite Boolean_length, IH. reflexivity.
Qed.

Lemma countNonEmptyLines_split content :
  countNonEmptyLines content = count_long_segments (split newline content).
Proof. unfold countNonEmptyLines, count_long_segments. by rewrite filter_Boolean_long. Qed.

(** C2. [countNonEmptyLines] returns the number of segments of length
    strictly greater than zero among the segments obtained by splitting
    the text on the newline character: every text has such a
    segmentation (newline-free pieces whose concatenation with newlines
    in between is the text), any such segmentation is the one the code
    computes, and the count is the number of its pieces with a positive
    length.  Carriage returns are not stripped: a segment that is just a
    carriage return counts.  The counts of the empty text, of a lone
    newline, and of [a\nb], [a\n\nb], [a\nb\n] are 0, 0, 2, 2, 2. *)
Theorem countNonEmptyLines_counts_long_segments (content : string) :
  (exists segs,
      segs <> []
      /\ Forall (fun seg => free_of newline seg = true) segs
      /\ join newline segs = content
      /\ countNonEmptyLines content = count_long_segments segs)
  /\ (forall segs,
      segs <> [] ->
      Forall (fun seg => free_of newline seg = true) segs ->
      join newline segs = content ->
      split newline content = segs
      /\ countNonEmptyLines content = count_long_segments segs)
  /\ countNonEmptyLines CR = 1
  /\ countNonEmptyLines ("a" ++ LF ++ CR ++ LF ++ "b") = 3
  /\ countNonEmptyLines EmptyString = 0
  /\ countNonEmptyLines LF = 0
  /\ countNonEmptyLines ("a" ++ LF ++ "b") = 2
  /\ countNonEmptyLines ("a" ++ LF ++ LF ++ "b") = 2
  /\ countNonEmptyLines ("a" ++ LF ++ "b" ++ LF) = 2.
Proof.
  split; [|split].
  - exists (split newline content).
    split; [apply split_not_nil|].
    split; [apply split_segments_free|].
    split; [apply join_split|apply countNonEmptyLines_split].
  - intros segs Hne Hfree <-.
    assert (split newline (join newline segs) = segs) as Hsplit
      by (apply split_join; assumption).
    split; [exact Hsplit|].
    rewrite countNonEmptyLines_split, Hsplit. reflexivity.
  - repeat split; reflexivity.
Qed.

Lemma countNonEmptyLines_counts_long_segments_witness :
  split newline ("a" ++ LF ++ CR ++ LF ++ LF ++ "bc" ++ LF)
    = ["a"; CR; EmptyString; "bc"; EmptyString]
  /\ countNonEmptyLines ("a" ++ LF ++ CR ++ LF ++ LF ++ "bc" ++ LF) = 3.
Proof.
  destruct (countNonEmptyLines_counts_long_segments
              ("a" ++ LF ++ CR ++ LF ++ LF ++ "bc" ++ LF)) as (_ & Hsegs & _).
  destruct (Hsegs ["a"; CR; EmptyString; "bc"; EmptyString])
    as (Hsplit & Hcount).
  - discriminate.
  - repeat constructor.
  - reflexivity.
  - split; [exact Hsplit|exact Hcount].
Defined.

(** C9. Appending one newline to a text never changes its count of
    non-empty lines. *)
Theorem countNonEmptyLines_trailing_newline (s : string) :
  countNonEmptyLines (s ++ LF) = countNonEmptyLines s.
Proof.
  unfold countNonEmptyLines, LF.
  rewrite split_snoc_sep, List.filter_app. simpl.
  rewrite app_nil_r. reflexivity.
Qed.

(** ** The index of the maximum *)

Lemma greatest_lower x rest : x <= greatest x rest.
Proof.
  unfold greatest. revert x.
  induction rest as [|y rest IH]; intros x; simpl; [lia|].
  specialize (IH (Z.max x y)). lia.
Qed.

Lemma greatest_upper x rest y : y ∈ rest -> y <= greatest x rest.
Proof.
  unfold greatest. revert x.
  induction rest as [|z rest IH]; intros x Hin; simpl.
  - inversion Hin.
  - apply elem_of_cons in Hin as [->|Hin].
    + pose proof (greatest_lower (Z.max x z) rest) as H. unfold greatest in H. lia.
    + apply IH, Hin.
Qed.

Lemma greatest_elem x rest : greatest x rest ∈ x :: rest.
Proof.
  unfold greatest. revert x.
  induction rest as [|y rest IH]; intros x; simpl.
  - apply list_elem_of_here.
  - specialize (IH (Z.max x y)).
    apply elem_of_cons in IH as [Heq|Hin].
    + rewrite Heq. destruct (Z.max_spec x y) as [[_ ->]|[_ ->]].
      * apply list_elem_of_further, list_elem_of_here.
      * apply list_elem_of_here.
    + do 2 apply list_elem_of_further. exact Hin.
Qed.

Lemma indexOf_elem x numbers : x ∈ numbers -> is_Some (indexOf x numbers).
Proof.
  induction numbers as [|y rest IH]; intros Hin; [inversion Hin|].
  simpl. destruct (Z.eqb_spec y x) as [_|Hne]; [eauto|].
  apply elem_of_cons in Hin as [->|Hin]; [congruence|].
  destruct (IH Hin) as [i ->]. simpl. eauto.
Qed.

Lemma indexOf_first x numbers i :
  indexOf x numbers = Some i ->
  numbers !! i = Some x /\ forall j, numbers !! j = Some x -> (i <= j)%nat.
Proof.
  revert i. induction numbers as [|y rest IH]; intros i; simpl; [discriminate|].
  destruct (Z.eqb_spec y x) as [->|Hne].
  - intros [= <-]. split; [reflexivity|intros; lia].
  - destruct (indexOf x rest) as [i'|]; simpl; [|discriminate].
    intros [= <-]. destruct (IH i' eq_refl) as [Hat Hmin].
    split; [exact Hat|].
    intros [|j] Hj; simpl in Hj; [congruence|].
    apply Hmin in Hj. lia.
Qed.

(** The index returned on a non-empty sequence: in range, holding the
    greatest value, and the first to hold it. *)
Lemma indexOfMax_nonempty (numbers : list Z) :
  numbers <> [] ->
  exists i m,
    indexOfMax numbers = Some i
    /\ numbers !! i = Some m
    /\ (forall j x, numbers !! j = Some x -> x <= m)
    /\ (forall j, numbers !! j = Some m -> (i <= j)%nat).
Proof.
  intros Hne.
  destruct numbers as [|x rest]; [congruence|].
  unfold indexOfMax.
  destruct (indexOf_elem (greatest x rest) (x :: rest) (greatest_elem x rest))
    as [i Hi].
  destruct (indexOf_first _ _ _ Hi) as [Hat Hmin].
  exists i, (greatest x rest). repeat split; try assumption.
  intros [|j] y Hj; simpl in Hj.
  - injection Hj as <-. apply greatest_lower.
  - apply greatest_upper. eapply list_elem_of_lookup_2, Hj.
Qed.

(** C6. On every non-empty sequence of numbers [indexOfMax] returns an
    index [i] in range whose element is greater than or equal to every
    element of the sequence, and no smaller index holds that value;
    [indexOfMax [3;1;3;2]] is 0. *)
Theorem indexOfMax_first_greatest (numbers : list Z) :
  numbers <> [] ->
  (exists i m,
      indexOfMax numbers = Some i
      /\ numbers !! i = Some m
      /\ (forall j x, numbers !! j = Some x -> x <= m)
      /\ (forall j, numbers !! j = Some m -> (i <= j)%nat))
  /\ indexOfMax [3; 1; 3; 2] = Some 0%nat.
Proof.
  intros Hne. split; [by apply indexOfMax_nonempty|reflexivity].
Qed.

Lemma indexOfMax_first_greatest_witness :
  exists i m,
    indexOfMax [2; 7; 1; 7; 4] = Some i
    /\ [2; 7; 1; 7; 4] !! i = Some m
    /\ (forall j x, [2; 7; 1; 7; 4] !! j = Some x -> x <= m)
    /\ (forall j, [2; 7; 1; 7; 4] !! j = Some m -> (i <= j)%nat).
Proof.
  apply (indexOfMax_first_greatest [2; 7; 1; 7; 4]). discriminate.
Defined.

(** ** The fan-in of [map-async] *)

Section FanIn.
Context {B : Type}.
Implicit Types (ops : list (error + B)) (slots : list (option B)).

Lemma slots_of_initial ops : slots_of ops (replicate (length ops) None).
Proof.
  split; [apply length_replicate|].
  intros k v Hk. apply lookup_replicate in Hk as [? _]. discriminate.
Qed.

Lemma slots_of_insert ops slots k v :
  slots_of ops slots -> ops !! k = Some (inr v) ->
  slots_of ops (<[k := Some v]> slots).
Proof.
  intros [Hlen Hslots] Hk. split; [by rewrite length_insert|].
  intros k' v' Hk'.
  destruct (decide (k = k')) as [<-|Hne].
  - rewrite list_lookup_insert_eq in Hk'; [congruence|].
    rewrite Hlen. eapply lookup_lt_Some, Hk.
  - rewrite list_lookup_insert_ne in Hk' by exact Hne. by apply Hslots.
Qed.

(** Once every slot is filled, the results are those of the
    operations, position by position. *)
Lemma slots_of_full ops slots results :
  slots_of ops slots -> mapM id slots = Some results -> ops = (inr <$> results).
Proof.
  intros [Hlen Hslots] Hfull.
  apply mapM_Some in Hfull.
  pose proof (Forall2_length _ _ _ Hfull) as Hlen'.
  apply list_eq. intros k. rewrite list_lookup_fmap.
  destruct (results !! k) as [r|] eqn:Hr; simpl.
  - destruct (Forall2_lookup_r _ _ _ _ _ Hfull Hr) as (slot & Hslot & Hid).
    simpl in Hid. subst slot. by apply Hslots.
  - apply lookup_ge_None. apply lookup_ge_None in Hr. lia.
Qed.

(** The three ways a fan-in can go: all results delivered, the first
    observed failure delivered, or reads still in flight. *)
Lemma fan_in_cases ops (callback : error + list B -> log) order slots :
  slots_of ops slots ->
  (exists results,
      ops = (inr <$> results) /\
      fan_in ops callback order slots = callback (inr results))
  \/ (exists k err,
      k ∈ order /\ ops !! k = Some (inl err) /\
      fan_in ops callback order slots = callback (inl err))
  \/ (exists k,
      (k < length ops)%nat /\ (k ∉ order) /\ slots !! k = Some None /\
      fan_in ops callback order slots = []).
Proof.
  revert slots. induction order as [|k later IH]; intros slots Hslots; simpl.
  - destruct (mapM id slots) as [results|] eqn:Hfull.
    + left. exists results. split; [|reflexivity]. by eapply slots_of_full.
    + right; right. apply mapM_None in Hfull.
      apply Exists_exists in Hfull as (slot & Hin & Hnone).
      apply list_elem_of_lookup in Hin as [k Hk]. simpl in Hnone. subst slot.
      exists k. repeat split; [|apply not_elem_of_nil|exact Hk].
      destruct Hslots as [<- _]. eapply lookup_lt_Some, Hk.
  - destruct (mapM id slots) as [results|] eqn:Hfull.
    + left. exists results. split; [|reflexivity]. by eapply slots_of_full.
    + destruct (ops !! k) as [[err|value]|] eqn:Hk.
      * right; left. exists k, err. repeat split; [apply list_elem_of_here|exact Hk].
      * destruct (IH (<[k := Some value]> slots)) as [Hall|[Hfail|Hwait]].
        { by apply slots_of_insert. }
        { left. exact Hall. }
        { right; left. destruct Hfail as (k' & err & Hin & Hk' & Heq).
          exists k', err. repeat split; [by apply list_elem_of_further|done|done]. }
        { right; right. destruct Hwait as (k' & Hlt & Hnin & Hslot & Heq).
          assert (k <> k') as Hne.
          { intros <-. rewrite list_lookup_insert_eq in Hslot; [discriminate|].
            destruct Hslots as [-> _]. eapply lookup_lt_Some, Hk. }
          rewrite list_lookup_insert_ne in Hslot by exact Hne.
          exists k'. repeat split; [done| |done|done].
          rewrite not_elem_of_cons. split; [congruence|exact Hnin]. }
      * destruct (IH slots Hslots) as [Hall|[Hfail|Hwait]].
        { left. exact Hall. }
        { right; left. destruct Hfail as (k' & err & Hin & Hk' & Heq).
          exists k', err. repeat split; [by apply list_elem_of_further|done|done]. }
        { right; right. destruct Hwait as (k' & Hlt & Hnin & Hslot & Heq).
          exists k'. repeat split; [done| |done|done].
          rewrite not_elem_of_cons. split; [|exact Hnin].
          intros ->. apply lookup_ge_None in Hk. lia. }
Qed.

End FanIn.

(** ** Loading a batch of files *)

Section Loading.
Variable fs : filesystem.

Lemma loaded_fmap filenames contents :
  readFile fs <$> filenames = inr <$> contents <-> loaded fs filenames contents.
Proof.
  unfold loaded. revert contents.
  induction filenames as [|p rest IH]; intros [|c contents]; simpl.
  - split; [constructor|reflexivity].
  - split; [discriminate|intros H; inversion H].
  - split; [discriminate|intros H; inversion H].
  - split.
    + intros [= Hp Hrest]. constructor; [exact Hp|by apply IH].
    + intros H. inversion H as [|? ? ? ? Hp Hrest]; subst.
      rewrite Hp. f_equal. by apply IH.
Qed.

Lemma loaded_length filenames contents :
  loaded fs filenames contents -> length contents = length filenames.
Proof. intros H. symmetry. eapply Forall2_length, H. Qed.

Lemma loaded_unique filenames contents contents' :
  loaded fs filenames contents -> loaded fs filenames contents' ->
  contents = contents'.
Proof.
  unfold loaded. intros H. revert contents'.
  induction H as [|p c filenames contents Hp _ IH]; intros contents' H';
    inversion H' as [|? c' ? contents'' Hp' Hrest]; subst; [reflexivity|].
  f_equal; [congruence|by apply IH].
Qed.

Lemma mapAsync_load order filenames (callback : error + list string -> log) :
  mapAsync order filenames (load fs) callback =
  (ReadFile <$> filenames) ++
  fan_in (readFile fs <$> filenames) callback order
         (replicate (length (readFile fs <$> filenames)) None).
Proof.
  unfold mapAsync. rewrite <- !list_fmap_compose, length_fmap. reflexivity.
Qed.

(** The three ways [loadFiles] can go. *)
Lemma loadFiles_cases order filenames (callback : error + list string -> log) :
  (exists contents,
      loaded fs filenames contents /\
      loadFiles fs order filenames callback =
      LoadFiles filenames :: (ReadFile <$> filenames) ++ callback (inr contents))
  \/ (exists k p err,
      k ∈ order /\ filenames !! k = Some p /\ readFile fs p = inl err /\
      loadFiles fs order filenames callback =
      LoadFiles filenames :: (ReadFile <$> filenames) ++ callback (inl err))
  \/ (exists k,
      (k < length filenames)%nat /\ (k ∉ order) /\
      loadFiles fs order filenames callback =
      LoadFiles filenames :: (ReadFile <$> filenames)).
Proof.
  unfold loadFiles. rewrite mapAsync_load.
  destruct (fan_in_cases (readFile fs <$> filenames) callback order _
              (slots_of_initial _)) as [Hall|[Hfail|Hwait]].
  - left. destruct Hall as (results & Hops & ->).
    exists results. split; [by apply loaded_fmap|reflexivity].
  - right; left. destruct Hfail as (k & err & Hin & Hk & ->).
    rewrite list_lookup_fmap in Hk.
    destruct (filenames !! k) as [p|] eqn:Hp; simpl in Hk; [|discriminate].
    exists k, p, err. repeat split; try done. congruence.
  - right; right. destruct Hwait as (k & Hlt & Hnin & _ & ->).
    rewrite length_fmap in Hlt. rewrite app_nil_r.
    exists k. repeat split; assumption.
Qed.

(** When every read settles, the callback of [loadFiles] fires. *)
Lemma loadFiles_settled order filenames (callback : error + list string -> log) :
  settle_order (length filenames) order ->
  (exists contents,
      loaded fs filenames contents /\
      loadFiles fs order filenames callback =
      LoadFiles filenames :: (ReadFile <$> filenames) ++ callback (inr contents))
  \/ (exists k p err,
      k ∈ order /\ filenames !! k = Some p /\ readFile fs p = inl err /\
      loadFiles fs order filenames callback =
      LoadFiles filenames :: (ReadFile <$> filenames) ++ callback (inl err)).
Proof.
  intros Horder.
  destruct (loadFiles_cases order filenames callback) as [Hall|[Hfail|Hwait]];
    [by left|by right|].
  destruct Hwait as (k & Hlt & Hnin & _). exfalso. apply Hnin.
  unfold settle_order in Horder. rewrite Horder. apply elem_of_seq. lia.
Qed.

End Loading.

(** ** The orchestrator *)

Section Orchestrator.
Variable fs : filesystem.

(** C3. When every read succeeds, [loadFiles] hands its callback the
    contents of the files, as many as there are paths and in the order
    of the paths, whatever the order in which the reads settle. *)
Theorem loadFiles_preserves_order (order : list nat) (filenames contents : list string)
    (callback : error + list string -> log) :
  settle_order (length filenames) order ->
  loaded fs filenames contents ->
  loadFiles fs order filenames callback =
    LoadFiles filenames :: (ReadFile <$> filenames) ++ callback (inr contents)
  /\ length contents = length filenames
  /\ (forall k p, filenames !! k = Some p ->
        exists c, contents !! k = Some c /\ readFile fs p = inr c).
Proof.
  intros Horder Hloaded. repeat split.
  - destruct (loadFiles_settled fs order filenames callback Horder)
      as [(contents' & Hloaded' & ->)|(k & p & err & _ & Hp & Herr & _)].
    + by rewrite (loaded_unique fs _ _ _ Hloaded Hloaded').
    + destruct (Forall2_lookup_l _ _ _ _ _ Hloaded Hp) as (c & _ & Hc).
      congruence.
  - by eapply loaded_length.
  - intros k p Hp. eapply Forall2_lookup_l in Hp; [|exact Hloaded]. exact Hp.
Qed.

(** The four ways [findMaxFile] can go: nothing to look at, a winner,
    a failed read, or reads that never settle. *)
Lemma findMaxFile_cases (order : list nat) (filenames : list string)
    (callback : error + result -> log) :
  (filenames = [] /\ findMaxFile fs order filenames callback = callback (inr Null))
  \/ (filenames <> [] /\ exists contents i p,
        loaded fs filenames contents /\
        indexOfMax (countNonEmptyLines <$> contents) = Some i /\
        filenames !! i = Some p /\
        findMaxFile fs order filenames callback =
        LoadFiles filenames :: (ReadFile <$> filenames) ++
        IndexOfMax (countNonEmptyLines <$> contents) :: callback (inr (Path p)))
  \/ (filenames <> [] /\ exists k p err,
        k ∈ order /\ filenames !! k = Some p /\ readFile fs p = inl err /\
        findMaxFile fs order filenames callback =
        LoadFiles filenames :: (ReadFile <$> filenames) ++ callback (inl err))
  \/ (filenames <> [] /\ exists k,
        (k < length filenames)%nat /\ (k ∉ order) /\
        findMaxFile fs order filenames callback =
        LoadFiles filenames :: (ReadFile <$> filenames)).
Proof.
  unfold findMaxFile.
  destruct filenames as [|p0 rest] eqn:Hfilenames; [by left|].
  rewrite <- Hfilenames. right.
  assert (filenames <> []) as Hne by (subst; discriminate).
  replace (length filenames =? 0)%nat with false by (subst; reflexivity).
  match goal with |- context [loadFiles fs order filenames ?cb] =>
    destruct (loadFiles_cases fs order filenames cb)
      as [(contents & Hloaded & ->)|[(k & p & err & Hin & Hp & Herr & ->)|(k & Hlt & Hnin & ->)]]
  end.
  - left. split; [exact Hne|].
    pose proof (loaded_length fs _ _ Hloaded) as Hlen.
    destruct (indexOfMax_nonempty (countNonEmptyLines <$> contents))
      as (i & m & Hi & Hm & _).
    { intros Hnil. apply (f_equal length) in Hnil.
      rewrite length_fmap, Hlen in Hnil. subst. discriminate. }
    apply lookup_lt_Some in Hm. rewrite length_fmap, Hlen in Hm.
    destruct (lookup_lt_is_Some_2 filenames i Hm) as [p Hp].
    exists contents, i, p. repeat split; try assumption.
    rewrite Hi. unfold at_index. rewrite Hp. reflexivity.
  - right; left. split; [exact Hne|]. exists k, p, err. by repeat split.
  - right; right. split; [exact Hne|]. exists k. by repeat split.
Qed.

(** What the log of [findMaxFile] can hold when the caller records the
    outcome. *)
Lemma findMaxFile_log (order : list nat) (filenames : list string) (e : event) :
  e ∈ findMaxFile fs order filenames report ->
  (filenames = [] /\ e = Callback (inr Null))
  \/ (filenames <> [] /\
      (e = LoadFiles filenames
       \/ (exists p, p ∈ filenames /\ e = ReadFile p)
       \/ (exists contents,
             loaded fs filenames contents /\
             e = IndexOfMax (countNonEmptyLines <$> contents))
       \/ (exists contents i p,
             loaded fs filenames contents /\
             indexOfMax (countNonEmptyLines <$> contents) = Some i /\
             filenames !! i = Some p /\
             e = Callback (inr (Path p)))
       \/ (exists p err,
             p ∈ filenames /\ readFile fs p = inl err /\
             e = Callback (inl err)))).
Proof.
  intros Hin.
  destruct (findMaxFile_cases order filenames report)
    as [[-> Heq]|[[Hne Hcase]|[[Hne Hcase]|[Hne Hcase]]]].
  - left. rewrite Heq in Hin. apply list_elem_of_singleton in Hin. by split.
  - right. split; [exact Hne|].
    destruct Hcase as (contents & i & p & Hloaded & Hi & Hp & Heq).
    rewrite Heq in Hin.
    apply elem_of_cons in Hin as [->|Hin]; [by left|].
    apply elem_of_app in Hin as [Hin|Hin].
    + right; left. apply list_elem_of_fmap in Hin as (q & -> & Hq). eauto.
    + apply elem_of_cons in Hin as [->|Hin]; [right; right; left; eauto|].
      apply list_elem_of_singleton in Hin as ->.
      right; right; right; left. exists contents, i, p. by repeat split.
  - right. split; [exact Hne|].
    destruct Hcase as (k & p & err & _ & Hp & Herr & Heq).
    rewrite Heq in Hin.
    apply elem_of_cons in Hin as [->|Hin]; [by left|].
    apply elem_of_app in Hin as [Hin|Hin].
    + right; left. apply list_elem_of_fmap in Hin as (q & -> & Hq). eauto.
    + apply list_elem_of_singleton in Hin as ->.
      right; right; right; right. exists p, err.
      repeat split; [eapply list_elem_of_lookup_2, Hp|exact Herr].
  - right. split; [exact Hne|].
    destruct Hcase as (k & _ & _ & Heq).
    rewrite Heq in Hin.
    apply elem_of_cons in Hin as [->|Hin]; [by left|].
    right; left. apply list_elem_of_fmap in Hin as (q & -> & Hq). eauto.
Qed.

(** C1. On a non-empty sequence of paths whose reads all succeed,
    [findMaxFile] calls back once, successfully, with [filenames[i]],
    the input path at the index [i] that [indexOfMax] returns on the
    line counts of the loaded contents taken in input order.  For three
    paths with 3, 5 and 5 non-empty lines the result is the second. *)
Theorem findMaxFile_selects_path_at_max (order : list nat)
    (filenames contents : list string) (callback : error + result -> log) :
  filenames <> [] ->
  settle_order (length filenames) order ->
  loaded fs filenames contents ->
  exists i p,
    indexOfMax (countNonEmptyLines <$> contents) = Some i
    /\ filenames !! i = Some p
    /\ findMaxFile fs order filenames callback =
       LoadFiles filenames :: (ReadFile <$> filenames) ++
       IndexOfMax (countNonEmptyLines <$> contents) :: callback (inr (Path p))
    /\ (forall A B C,
          filenames = [A; B; C] ->
          countNonEmptyLines <$> contents = [3; 5; 5] ->
          p = B).
Proof.
  intros Hne Horder Hloaded.
  destruct (findMaxFile_cases order filenames callback)
    as [[-> _]|[[_ Hcase]|[[_ Hcase]|[_ Hcase]]]]; [congruence| | |].
  - destruct Hcase as (contents' & i & p & Hloaded' & Hi & Hp & Heq).
    rewrite <- (loaded_unique fs _ _ _ Hloaded Hloaded') in *.
    exists i, p. repeat split; try assumption.
    intros A B C -> Hcounts. rewrite Hcounts in Hi.
    injection Hi as <-. simpl in Hp. congruence.
  - destruct Hcase as (k & p & err & _ & Hp & Herr & _).
    destruct (Forall2_lookup_l _ _ _ _ _ Hloaded Hp) as (c & _ & Hc).
    congruence.
  - destruct Hcase as (k & Hlt & Hnin & _). exfalso. apply Hnin.
    unfold settle_order in Horder. rewrite Horder. apply elem_of_seq. lia.
Qed.

(** C5. On the empty sequence [findMaxFile] calls back at once with
    [null]: no read is issued, and neither [loadFiles] nor [indexOfMax]
    is called; on no input at all is [loadFiles] called with an empty
    sequence. *)
Theorem findMaxFile_empty (order : list nat) :
  (forall callback, findMaxFile fs order [] callback = callback (inr Null))
  /\ findMaxFile fs order [] report = [Callback (inr Null)]
  /\ reads_issued (findMaxFile fs order [] report) = 0%nat
  /\ (forall filenames, LoadFiles [] ∉ findMaxFile fs order filenames report).
Proof.
  repeat split.
  intros filenames Hin.
  apply findMaxFile_log in Hin
    as [[_ ?]|[Hne [Heq|[(? & _ & ?)|[(? & _ & ?)|[(? & ? & ? & _ & _ & _ & ?)|(? & ? & _ & _ & ?)]]]]]];
    try discriminate.
  injection Heq as <-. congruence.
Qed.

(** C7. [indexOfMax] on an empty sequence fails and returns no index,
    and the orchestrator never calls it on one: whatever the paths, the
    directory, the file system and the order in which reads settle, no
    call of [indexOfMax] on an empty sequence is logged and nothing is
    thrown. *)
Theorem indexOfMax_guarded (path_join : string -> string -> string)
    (order : list nat) (filenames : list string) (dir : string) :
  indexOfMax [] = None
  /\ (IndexOfMax [] ∉ findMaxFile fs order filenames report)
  /\ (Thrown ∉ findMaxFile fs order filenames report)
  /\ (IndexOfMax [] ∉ findMaxFileInDirectory fs path_join order dir report)
  /\ (Thrown ∉ findMaxFileInDirectory fs path_join order dir report).
Proof.
  assert (forall fns, IndexOfMax [] ∉ findMaxFile fs order fns report) as Hidx.
  { intros fns Hin.
    apply findMaxFile_log in Hin
      as [[_ ?]|[Hne [?|[(? & _ & ?)|[(contents & Hloaded & Heq)|[(? & ? & ? & _ & _ & _ & ?)|(? & ? & _ & _ & ?)]]]]]];
      try discriminate.
    injection Heq as Heq. symmetry in Heq. apply fmap_nil_inv in Heq. subst contents.
    apply loaded_length in Hloaded. destruct fns; [congruence|discriminate]. }
  assert (forall fns, Thrown ∉ findMaxFile fs order fns report) as Hthrown.
  { intros fns Hin.
    apply findMaxFile_log in Hin
      as [[_ ?]|[Hne [?|[(? & _ & ?)|[(? & _ & ?)|[(? & ? & ? & _ & _ & _ & ?)|(? & ? & _ & _ & ?)]]]]]];
      discriminate. }
  repeat split; try done.
  - unfold findMaxFileInDirectory. intros Hin.
    apply elem_of_cons in Hin as [?|Hin]; [discriminate|].
    destruct (readdir fs dir) as [err|names].
    + apply list_elem_of_singleton in Hin. discriminate.
    + by apply Hidx in Hin.
  - unfold findMaxFileInDirectory. intros Hin.
    apply elem_of_cons in Hin as [?|Hin]; [discriminate|].
    destruct (readdir fs dir) as [err|names].
    + apply list_elem_of_singleton in Hin. discriminate.
    + by apply Hthrown in Hin.
Qed.

(** C8. A non-null value that [findMaxFile] succeeds with is an element
    of the input paths, taken at an index within their bounds. *)
Theorem findMaxFile_result_is_input (order : list nat) (filenames : list string)
    (v : result) :
  Callback (inr v) ∈ findMaxFile fs order filenames report ->
  v <> Null ->
  exists i p,
    (i < length filenames)%nat /\ filenames !! i = Some p /\
    v = Path p /\ p ∈ filenames.
Proof.
  intros Hin Hv.
  apply findMaxFile_log in Hin
    as [[_ Heq]|[Hne [?|[(? & _ & ?)|[(? & _ & ?)|[(contents & i & p & _ & _ & Hp & Heq)|(? & ? & _ & _ & ?)]]]]]];
    try discriminate.
  - congruence.
  - injection Heq as ->. exists i, p. repeat split; try done.
    + eapply lookup_lt_Some, Hp.
    + eapply list_elem_of_lookup_2, Hp.
Qed.

(** C4. Failures reach the caller's callback unchanged and nothing
    else does.  When the directory cannot be listed,
    [findMaxFileInDirectory] calls back with that very error and no file
    is read.  When some read fails, [findMaxFile] calls back once, with
    the error of a read that failed, and with no result; when a single
    read fails it is the error of that read. *)
Theorem failures_surface_verbatim (path_join : string -> string -> string)
    (order : list nat) :
  (forall dir err callback,
      readdir fs dir = inl err ->
      findMaxFileInDirectory fs path_join order dir callback =
        Readdir dir :: callback (inl err)
      /\ findMaxFileInDirectory fs path_join order dir report =
        [Readdir dir; Callback (inl err)]
      /\ reads_issued (findMaxFileInDirectory fs path_join order dir report) = 0%nat)
  /\ (forall filenames callback,
      settle_order (length filenames) order ->
      Exists (fun p => exists err, readFile fs p = inl err) filenames ->
      (exists p err,
          p ∈ filenames /\ readFile fs p = inl err /\
          findMaxFile fs order filenames callback =
            LoadFiles filenames :: (ReadFile <$> filenames) ++ callback (inl err))
      /\ (forall v, Callback (inr v) ∉ findMaxFile fs order filenames report))
  /\ (forall filenames callback p err,
      settle_order (length filenames) order ->
      p ∈ filenames ->
      readFile fs p = inl err ->
      (forall q, q ∈ filenames -> q <> p -> exists c, readFile fs q = inr c) ->
      findMaxFile fs order filenames callback =
        LoadFiles filenames :: (ReadFile <$> filenames) ++ callback (inl err))
  /\ (forall dir names callback,
      readdir fs dir = inr names ->
      findMaxFileInDirectory fs path_join order dir callback =
        Readdir dir :: findMaxFile fs order (path_join dir <$> names) callback).
Proof.
  assert (forall filenames callback,
      settle_order (length filenames) order ->
      Exists (fun p => exists err, readFile fs p = inl err) filenames ->
      exists p err,
        p ∈ filenames /\ readFile fs p = inl err /\
        findMaxFile fs order filenames callback =
          LoadFiles filenames :: (ReadFile <$> filenames) ++ callback (inl err))
    as Hfail.
  { intros filenames callback Horder Hex.
    apply Exists_exists in Hex as (q & Hq & err0 & Herr0).
    destruct (findMaxFile_cases order filenames callback)
      as [[-> _]|[[_ Hcase]|[[_ Hcase]|[_ Hcase]]]].
    - inversion Hq.
    - destruct Hcase as (contents & _ & _ & Hloaded & _).
      apply list_elem_of_lookup in Hq as [k Hk].
      destruct (Forall2_lookup_l _ _ _ _ _ Hloaded Hk) as (c & _ & Hc).
      congruence.
    - destruct Hcase as (k & p & err & _ & Hp & Herr & Heq).
      exists p, err. repeat split; [eapply list_elem_of_lookup_2, Hp|done|done].
    - destruct Hcase as (k & Hlt & Hnin & _). exfalso. apply Hnin.
      unfold settle_order in Horder. rewrite Horder. apply elem_of_seq. lia. }
  split; [|split; [|split]].
  - intros dir err callback Hdir. unfold findMaxFileInDirectory.
    rewrite Hdir. repeat split.
  - intros filenames callback Horder Hex. split; [by apply Hfail|].
    intros v Hin.
    destruct (Hfail filenames report Horder Hex) as (p & err & _ & _ & Heq).
    rewrite Heq in Hin.
    apply elem_of_cons in Hin as [?|Hin]; [discriminate|].
    apply elem_of_app in Hin as [Hin|Hin].
    + apply list_elem_of_fmap in Hin as (? & ? & _). discriminate.
    + apply list_elem_of_singleton in Hin. discriminate.
  - intros filenames callback p err Horder Hp Herr Hothers.
    destruct (Hfail filenames callback Horder) as (p' & err' & Hp' & Herr' & Heq).
    { apply Exists_exists. exists p. eauto. }
    destruct (decide (p' = p)) as [->|Hne]; [congruence|].
    destruct (Hothers p' Hp' Hne) as [c Hc]. congruence.
  - intros dir names callback Hdir. unfold findMaxFileInDirectory.
    rewrite Hdir. reflexivity.
Qed.

End Orchestrator.

(** C10. The path [findMaxFile] succeeds with is a function of the
    input paths and of the number of non-empty lines behind each path:
    two runs over the same paths, on file systems where every path has
    the same count, succeed with the same value. *)
Theorem findMaxFile_depends_on_counts (fs1 fs2 : filesystem) (order1 order2 : list nat)
    (filenames : list string) (v1 v2 : result) :
  (forall p c1 c2,
      p ∈ filenames -> readFile fs1 p = inr c1 -> readFile fs2 p = inr c2 ->
      countNonEmptyLines c1 = countNonEmptyLines c2) ->
  Callback (inr v1) ∈ findMaxFile fs1 order1 filenames report ->
  Callback (inr v2) ∈ findMaxFile fs2 order2 filenames report ->
  v1 = v2.
Proof.
  intros Hcounts Hin1 Hin2.
  apply findMaxFile_log in Hin1
    as [[Hnil Heq1]|[Hne [?|[(? & _ & ?)|[(? & _ & ?)|[(contents1 & i1 & p1 & Hl1 & Hi1 & Hp1 & Heq1)|(? & ? & _ & _ & ?)]]]]]];
    try discriminate;
  apply findMaxFile_log in Hin2
    as [[Hnil' Heq2]|[Hne' [?|[(? & _ & ?)|[(? & _ & ?)|[(contents2 & i2 & p2 & Hl2 & Hi2 & Hp2 & Heq2)|(? & ? & _ & _ & ?)]]]]]];
    try discriminate; try congruence.
  assert (countNonEmptyLines <$> contents1 = countNonEmptyLines <$> contents2) as Hsame.
  { clear -Hcounts Hl1 Hl2. unfold loaded in *.
    revert contents2 Hl2 Hcounts.
    induction Hl1 as [|p c1 filenames contents1 Hp1 _ IH];
      intros contents2 Hl2 Hcounts; inversion Hl2 as [|? c2 ? contents2' Hp2 Hrest];
      subst; [reflexivity|].
    simpl. f_equal.
    - eapply Hcounts; [apply list_elem_of_here|exact Hp1|exact Hp2].
    - apply IH; [exact Hrest|].
      intros q d1 d2 Hq. apply Hcounts. by apply list_elem_of_further. }
  rewrite Hsame in Hi1. congruence.
Qed.

(** ** The statements at work on the sample directory *)

Example findMaxFileInDirectory_notes :
  findMaxFileInDirectory sample_fs posix_join [1; 0]%nat "notes" report =
  [ Readdir "notes"; LoadFiles ["notes/x.txt"; "notes/y.txt"];
    ReadFile "notes/x.txt"; ReadFile "notes/y.txt";
    IndexOfMax [3; 2]; Callback (inr (Path "notes/x.txt")) ].
Proof. reflexivity. Qed.

Example findMaxFileInDirectory_empty :
  findMaxFileInDirectory sample_fs posix_join [] "empty" report =
  [Readdir "empty"; Callback (inr Null)].
Proof. reflexivity. Qed.

Example findMaxFile_reads_in_flight :
  findMaxFile sample_fs [2; 0]%nat docs_files report =
  [ LoadFiles docs_files;
    ReadFile "docs/a.txt"; ReadFile "docs/b.txt"; ReadFile "docs/c.txt" ].
Proof. reflexivity. Qed.

Lemma settle_order_docs : settle_order (length docs_files) [2; 0; 1]%nat.
Proof. exact (Permutation_cons_append [0; 1]%nat 2%nat). Defined.

Lemma loaded_docs : loaded sample_fs docs_files docs_contents.
Proof. repeat constructor. Defined.

Lemma findMaxFile_selects_path_at_max_witness :
  findMaxFile sample_fs [2; 0; 1]%nat docs_files report =
  [ LoadFiles docs_files;
    ReadFile "docs/a.txt"; ReadFile "docs/b.txt"; ReadFile "docs/c.txt";
    IndexOfMax [3; 5; 5];
    Callback (inr (Path "docs/b.txt")) ].
Proof.
  destruct (findMaxFile_selects_path_at_max sample_fs [2; 0; 1]%nat
              docs_files docs_contents report)
    as (i & p & Hi & Hp & Heq & Htie).
  - discriminate.
  - exact settle_order_docs.
  - exact loaded_docs.
  - rewrite Heq. rewrite (Htie _ _ _ eq_refl eq_refl). reflexivity.
Defined.

Lemma loadFiles_preserves_order_witness :
  loadFiles sample_fs [2; 0; 1]%nat docs_files (fun _ => []) =
    LoadFiles docs_files :: (ReadFile <$> docs_files)
  /\ length docs_contents = 3%nat
  /\ exists c, docs_contents !! 1%nat = Some c /\ readFile sample_fs "docs/b.txt" = inr c.
Proof.
  destruct (loadFiles_preserves_order sample_fs [2; 0; 1]%nat
              docs_files docs_contents (fun _ => []))
    as (Hlog & Hlen & Hat).
  - exact settle_order_docs.
  - exact loaded_docs.
  - split; [exact Hlog|]. split; [exact Hlen|].
    apply (Hat 1%nat). reflexivity.
Defined.

Lemma failures_surface_verbatim_witness :
  findMaxFileInDirectory sample_fs posix_join [1; 0]%nat "nowhere" report =
    [Readdir "nowhere"; Callback (inl (ENOENT "scandir" "nowhere"))]
  /\ findMaxFile sample_fs [1; 0]%nat gone_files report =
    [ LoadFiles gone_files; ReadFile "gone/a.txt"; ReadFile "gone/lost.txt";
      Callback (inl (ENOENT "open" "gone/lost.txt")) ]
  /\ (forall v, Callback (inr v) ∉ findMaxFile sample_fs [1; 0]%nat gone_files report).
Proof.
  destruct (failures_surface_verbatim sample_fs posix_join [1; 0]%nat)
    as (Hdir & Hany & Hone & _).
  assert (settle_order (length gone_files) [1; 0]%nat) as Horder
    by exact (Permutation_cons_append [0]%nat 1%nat).
  split; [|split].
  - destruct (Hdir "nowhere" (ENOENT "scandir" "nowhere") report eq_refl)
      as (_ & Hlog & _).
    exact Hlog.
  - apply (Hone gone_files report "gone/lost.txt").
    + exact Horder.
    + apply list_elem_of_further, list_elem_of_here.
    + reflexivity.
    + intros q Hq Hne.
      apply elem_of_cons in Hq as [->|Hq]; [eexists; reflexivity|].
      apply list_elem_of_singleton in Hq. exfalso. apply Hne. exact Hq.
  - apply (Hany gone_files report).
    + exact Horder.
    + apply Exists_cons_tl, Exists_cons_hd. eexists. reflexivity.
Defined.

Lemma findMaxFile_result_is_input_witness :
  Callback (inr (Path "docs/b.txt")) ∈ findMaxFile sample_fs [2; 0; 1]%nat docs_files report
  /\ exists i p,
      (i < length docs_files)%nat /\ docs_files !! i = Some p /\
      Path "docs/b.txt" = Path p /\ p ∈ docs_files.
Proof.
  assert (Callback (inr (Path "docs/b.txt"))
            ∈ findMaxFile sample_fs [2; 0; 1]%nat docs_files report) as Hin.
  { do 5 apply list_elem_of_further. apply list_elem_of_here. }
  split; [exact Hin|].
  apply (findMaxFile_result_is_input sample_fs [2; 0; 1]%nat docs_files _ Hin).
  discriminate.
Defined.

Lemma findMaxFile_depends_on_counts_witness :
  Callback (inr (Path "docs/b.txt")) ∈ findMaxFile sample_fs [2; 0; 1]%nat docs_files report
  /\ Callback (inr (Path "docs/b.txt"))
       ∈ findMaxFile (with_trailing_newline sample_fs) [0; 1; 2]%nat docs_files report
  /\ Path "docs/b.txt" = Path "docs/b.txt".
Proof.
  assert (Callback (inr (Path "docs/b.txt"))
            ∈ findMaxFile sample_fs [2; 0; 1]%nat docs_files report) as Hin1.
  { do 5 apply list_elem_of_further. apply list_elem_of_here. }
  assert (Callback (inr (Path "docs/b.txt"))
            ∈ findMaxFile (with_trailing_newline sample_fs) [0; 1; 2]%nat docs_files report) as Hin2.
  { do 5 apply list_elem_of_further. apply list_elem_of_here. }
  split; [exact Hin1|]. split; [exact Hin2|].
  apply (findMaxFile_depends_on_counts sample_fs (with_trailing_newline sample_fs)
           [2; 0; 1]%nat [0; 1; 2]%nat docs_files); [|exact Hin1|exact Hin2].
  intros p c1 c2 Hp.
  apply elem_of_cons in Hp as [->|Hp]; [intros [= <-] [= <-]; reflexivity|].
  apply elem_of_cons in Hp as [->|Hp]; [intros [= <-] [= <-]; reflexivity|].
  apply list_elem_of_singleton in Hp as ->. intros [= <-] [= <-]. reflexivity.
Defined.

(** * Further properties *)

(** ** The counting loop and the counting pipeline *)

Lemma count_long_segments_cons seg segs :
  count_long_segments (seg :: segs) =
  (if (0 <? String.length seg)%nat then 1 else 0) + count_long_segments segs.
Proof.
  unfold count_long_segments. simpl.
  destruct (0 <? String.length seg)%nat; simpl length; lia.
Qed.

Lemma fold_loop_step (before lines : list string) (count : Z) :
  fold_left (loop_step (before ++ lines)) (seq (length before) (length lines)) count
  = count + count_long_segments lines.
Proof.
  revert before count. induction lines as [|line lines IH]; intros before count.
  - simpl. unfold count_long_segments. simpl. lia.
  - simpl seq. simpl fold_left.
    unfold loop_step at 2. rewrite list_lookup_middle by reflexivity.
    rewrite (cons_middle line before lines), app_assoc.
    replace (S (length before)) with (length (before ++ [line]))
      by (rewrite length_app; simpl; lia).
    rewrite IH, count_long_segments_cons.
    destruct (0 <? String.length line)%nat; lia.
Qed.

Lemma countLoop_pipeline (res : string) :
  countLoop res = countNonEmptyLines res.
Proof.
  unfold countLoop.
  pose proof (fold_loop_step [] (split newline res) 0) as Hloop.
  simpl in Hloop. rewrite Hloop, countNonEmptyLines_split. reflexivity.
Qed.

(** X1. The [for] loop of the first listing and the
    [split/filter/length] pipeline that replaces it count the same, on
    every text. *)
Theorem countLoop_countNonEmptyLines (res : string) :
  countLoop res = countNonEmptyLines res
  /\ countLoop res = count_long_segments (split newline res).
Proof.
  split; [apply countLoop_pipeline|].
  rewrite countLoop_pipeline. apply countNonEmptyLines_split.
Qed.

Lemma split_app_sep_any sep s t :
  split sep (s ++ String sep t) = split sep s ++ split sep t.
Proof.
  induction s as [|c s IH]; simpl.
  - rewrite Ascii.eqb_refl. reflexivity.
  - rewrite IH. destruct (Ascii.eqb c sep); [reflexivity|].
    pose proof (split_not_nil sep s) as Hne.
    destruct (split sep s) as [|seg segs]; [congruence|reflexivity].
Qed.

(** X2. The count is additive over texts put one after the other with
    a newline in between. *)
Theorem countNonEmptyLines_lines_add (s t : string) :
  countNonEmptyLines (s ++ LF ++ t) = countNonEmptyLines s + countNonEmptyLines t.
Proof.
  unfold countNonEmptyLines, LF.
  change (String newline EmptyString ++ t)%string with (String newline t).
  rewrite split_app_sep_any, List.filter_app, length_app. lia.
Qed.

Lemma nonempty_segments_bound sep s :
  (2 * length (List.filter Boolean (split sep s)) <= String.length s + 1)%nat
  /\ (head (split sep s) = Some EmptyString ->
      (2 * length (List.filter Boolean (split sep s)) <= String.length s)%nat).
Proof.
  induction s as [|c s [IHweak IHstrong]]; simpl.
  - split; intros; lia.
  - destruct (Ascii.eqb c sep).
    + simpl. split; intros; lia.
    + pose proof (split_not_nil sep s) as Hne.
      destruct (split sep s) as [|seg segs]; [congruence|].
      simpl in *. split; [|discriminate].
      destruct seg as [|c' seg]; simpl in *.
      * specialize (IHstrong eq_refl). lia.
      * lia.
Qed.

(** X3. The count is never negative, and a text of [n] characters has
    at most [(n + 1) / 2] non-empty lines. *)
Theorem countNonEmptyLines_bounds (s : string) :
  0 <= countNonEmptyLines s
  /\ 2 * countNonEmptyLines s <= Z.of_nat (String.length s) + 1.
Proof.
  unfold countNonEmptyLines.
  destruct (nonempty_segments_bound newline s) as [Hbound _]. lia.
Qed.

(** X4. The count is zero exactly on the texts made of newlines only. *)
Theorem countNonEmptyLines_zero_iff (s : string) :
  countNonEmptyLines s = 0 <->
  (forall n c, String.get n s = Some c -> c = newline).
Proof.
  unfold countNonEmptyLines. induction s as [|c s IH]; simpl.
  - split; [intros _ n ch [=]|reflexivity].
  - destruct (Ascii.eqb_spec c newline) as [->|Hc].
    + simpl. rewrite IH. split.
      * intros Hall [|n] ch; simpl; [congruence|apply Hall].
      * intros Hall n ch Hn. apply (Hall (S n)). exact Hn.
    + pose proof (split_not_nil newline s) as Hne.
      destruct (split newline s) as [|seg segs]; [congruence|].
      simpl. split; [lia|].
      intros Hall. exfalso. apply Hc. apply (Hall O). reflexivity.
Qed.

(** ** The orchestrator, end to end *)

Lemma findMaxFile_winner (fs : filesystem) (order : list nat)
    (filenames contents : list string) (callback : error + result -> log) :
  filenames <> [] ->
  settle_order (length filenames) order ->
  loaded fs filenames contents ->
  exists i p,
    indexOfMax (countNonEmptyLines <$> contents) = Some i
    /\ filenames !! i = Some p
    /\ findMaxFile fs order filenames callback =
       LoadFiles filenames :: (ReadFile <$> filenames) ++
       IndexOfMax (countNonEmptyLines <$> contents) :: callback (inr (Path p)).
Proof.
  intros Hne Horder Hloaded.
  destruct (findMaxFile_cases fs order filenames callback)
    as [[-> _]|[[_ Hcase]|[[_ Hcase]|[_ Hcase]]]]; [congruence| | |].
  - destruct Hcase as (contents' & i & p & Hloaded' & Hi & Hp & Heq).
    rewrite <- (loaded_unique fs _ _ _ Hloaded Hloaded') in *.
    exists i, p. by repeat split.
  - destruct Hcase as (k & p & err & _ & Hp & Herr & _).
    destruct (Forall2_lookup_l _ _ _ _ _ Hloaded Hp) as (c & _ & Hc).
    congruence.
  - destruct Hcase as (k & Hlt & Hnin & _). exfalso. apply Hnin.
    unfold settle_order in Horder. rewrite Horder. apply elem_of_seq. lia.
Qed.

(** X5. What [findMaxFile] is for: when the reads of a non-empty
    sequence of paths all succeed, the path handed to the callback is
    that of a file with the most non-empty lines, and of the first such
    file in input order. *)
Theorem findMaxFile_most_lines (fs : filesystem) (order : list nat)
    (filenames contents : list string) :
  filenames <> [] ->
  settle_order (length filenames) order ->
  loaded fs filenames contents ->
  exists i p c,
    filenames !! i = Some p
    /\ contents !! i = Some c
    /\ findMaxFile fs order filenames report =
       LoadFiles filenames :: (ReadFile <$> filenames) ++
       [IndexOfMax (countNonEmptyLines <$> contents); Callback (inr (Path p))]
    /\ (forall j c', contents !! j = Some c' ->
          countNonEmptyLines c' <= countNonEmptyLines c)
    /\ (forall j c', (j < i)%nat -> contents !! j = Some c' ->
          countNonEmptyLines c' < countNonEmptyLines c).
Proof.
  intros Hne Horder Hloaded.
  destruct (findMaxFile_winner fs order filenames contents report Hne Horder Hloaded)
    as (i & p & Hi & Hp & Heq).
  destruct (indexOfMax_nonempty (countNonEmptyLines <$> contents))
    as (i' & m & Hi' & Hm & Hmax & Hfirst).
  { intros Hnil. apply fmap_nil_inv in Hnil. subst contents.
    apply loaded_length in Hloaded. destruct filenames; [congruence|discriminate]. }
  assert (i' = i) as -> by congruence.
  rewrite list_lookup_fmap in Hm.
  destruct (contents !! i) as [c|] eqn:Hc; simpl in Hm; [|discriminate].
  injection Hm as <-.
  exists i, p, c. repeat split; try done.
  - intros j c' Hj. apply (Hmax j). rewrite list_lookup_fmap, Hj. reflexivity.
  - intros j c' Hlt Hj.
    assert (countNonEmptyLines c' <= countNonEmptyLines c) as Hle.
    { apply (Hmax j). rewrite list_lookup_fmap, Hj. reflexivity. }
    destruct (decide (countNonEmptyLines c' = countNonEmptyLines c)) as [Heqc|]; [|lia].
    assert (i <= j)%nat; [|lia].
    apply Hfirst. rewrite list_lookup_fmap, Hj. simpl. by rewrite Heqc.
Qed.

(** X6. [findMaxFileInDirectory] on a directory that lists at least
    one name and whose files can all be read: one listing, one read per
    name, and the callback receives the directory joined with one of the
    listed names, the one at the index of the greatest line count. *)
Theorem findMaxFileInDirectory_joined_path (fs : filesystem)
    (path_join : string -> string -> string) (order : list nat) (dir : string)
    (names contents : list string) (callback : error + result -> log) :
  readdir fs dir = inr names ->
  names <> [] ->
  settle_order (length names) order ->
  loaded fs (path_join dir <$> names) contents ->
  exists i name,
    names !! i = Some name
    /\ indexOfMax (countNonEmptyLines <$> contents) = Some i
    /\ findMaxFileInDirectory fs path_join order dir callback =
       Readdir dir :: LoadFiles (path_join dir <$> names) ::
       (ReadFile <$> (path_join dir <$> names)) ++
       IndexOfMax (countNonEmptyLines <$> contents) ::
       callback (inr (Path (path_join dir name))).
Proof.
  intros Hdir Hne Horder Hloaded.
  destruct (findMaxFile_winner fs order (path_join dir <$> names) contents callback)
    as (i & p & Hi & Hp & Heq).
  - intros Hnil. apply fmap_nil_inv in Hnil. congruence.
  - by rewrite length_fmap.
  - exact Hloaded.
  - rewrite list_lookup_fmap in Hp.
    destruct (names !! i) as [name|] eqn:Hname; simpl in Hp; [|discriminate].
    injection Hp as <-.
    exists i, name. repeat split; try done.
    unfold findMaxFileInDirectory. rewrite Hdir. f_equal. exact Heq.
Qed.

Lemma filter_is_read_reads (filenames : list string) :
  List.filter is_read (ReadFile <$> filenames) = ReadFile <$> filenames.
Proof.
  induction filenames as [|p rest IH]; [reflexivity|].
  rewrite fmap_cons. simpl. f_equal. exact IH.
Qed.

(** X7. Whatever the outcome of a run of [findMaxFile] (a winner, a
    failed read, reads that never settle, or no paths at all), the reads
    it issues are one per input path, in input order. *)
Theorem findMaxFile_reads_each_path_once (fs : filesystem) (order : list nat)
    (filenames : list string) :
  List.filter is_read (findMaxFile fs order filenames report) = ReadFile <$> filenames
  /\ reads_issued (findMaxFile fs order filenames report) = length filenames.
Proof.
  assert (List.filter is_read (findMaxFile fs order filenames report)
          = ReadFile <$> filenames) as Hreads.
  { destruct (findMaxFile_cases fs order filenames report)
      as [[-> Heq]|[[_ Hcase]|[[_ Hcase]|[_ Hcase]]]].
    - rewrite Heq. reflexivity.
    - destruct Hcase as (contents & i & p & _ & _ & _ & ->).
      simpl. rewrite List.filter_app, filter_is_read_reads. simpl.
      by rewrite app_nil_r.
    - destruct Hcase as (k & p & err & _ & _ & _ & ->).
      simpl. rewrite List.filter_app, filter_is_read_reads. simpl.
      by rewrite app_nil_r.
    - destruct Hcase as (k & _ & _ & ->).
      simpl. by rewrite filter_is_read_reads. }
  split; [exact Hreads|].
  unfold reads_issued. by rewrite Hreads, length_fmap.
Qed.

(** ** A newline more at the end of every file *)

Lemma mapM_id_fmap {B C : Type} (g : B -> C) (slots : list (option B)) :
  mapM id (fmap (M:=option) g <$> slots) =
  fmap (M:=option) (fmap (M:=list) g) (mapM id slots).
Proof.
  induction slots as [|slot slots IH]; [reflexivity|].
  rewrite fmap_cons. simpl. rewrite IH.
  destruct slot as [v|]; simpl; [|reflexivity].
  destruct (mapM id slots); reflexivity.
Qed.

Lemma fan_in_ext {B : Type} (ops : list (error + B))
    (callback callback' : error + list B -> log) order slots :
  (forall r, callback r = callback' r) ->
  fan_in ops callback order slots = fan_in ops callback' order slots.
Proof.
  intros Hext. revert slots.
  induction order as [|k later IH]; intros slots; simpl.
  - destruct (mapM id slots); [apply Hext|reflexivity].
  - destruct (mapM id slots); [apply Hext|].
    destruct (ops !! k) as [[err|value]|]; [apply Hext|apply IH|apply IH].
Qed.

(** Mapping the results of the operations is mapping what the callback
    receives. *)
Lemma fan_in_fmap {B C : Type} (g : B -> C) (ops : list (error + B))
    (callback : error + list C -> log) order slots :
  fan_in (sum_map (@id error) g <$> ops) callback order
         (fmap (M:=option) g <$> slots) =
  fan_in ops (fun r => callback (sum_map (@id error) (fmap (M:=list) g) r))
         order slots.
Proof.
  revert slots. induction order as [|k later IH]; intros slots; simpl.
  - rewrite mapM_id_fmap. destruct (mapM id slots); reflexivity.
  - rewrite mapM_id_fmap. destruct (mapM id slots); simpl; [reflexivity|].
    rewrite list_lookup_fmap.
    destruct (ops !! k) as [[err|value]|]; simpl; [reflexivity| |apply IH].
    rewrite <- IH. f_equal. symmetry.
    exact (list_fmap_insert (fmap (M:=option) g) slots k (Some value)).
Qed.

Lemma countNonEmptyLines_snoc_LF (c : string) :
  countNonEmptyLines (c ++ LF) = countNonEmptyLines c.
Proof.
  unfold countNonEmptyLines, LF.
  rewrite split_snoc_sep, List.filter_app. simpl.
  by rewrite app_nil_r.
Qed.

(** X8. Ending every file with one more newline changes nothing in a
    run of [findMaxFile]: the same reads, the same line counts, the same
    outcome. *)
Theorem findMaxFile_trailing_newlines (fs : filesystem) (order : list nat)
    (filenames : list string) (callback : error + result -> log) :
  findMaxFile (with_trailing_newline fs) order filenames callback =
  findMaxFile fs order filenames callback.
Proof.
  unfold findMaxFile. destruct (length filenames =? 0)%nat; [reflexivity|].
  unfold loadFiles. f_equal. rewrite !mapAsync_load. f_equal.
  assert (readFile (with_trailing_newline fs) <$> filenames =
          sum_map (@id error) (fun c => (c ++ LF)%string)
            <$> (readFile fs <$> filenames)) as ->.
  { rewrite <- list_fmap_compose. apply list_fmap_ext. intros _ p _. simpl.
    destruct (readFile fs p); reflexivity. }
  rewrite !length_fmap.
  pose proof (fmap_replicate (fmap (M:=option) (fun c => (c ++ LF)%string))
                (length filenames) None) as Hslots.
  simpl in Hslots. rewrite <- Hslots at 1.
  rewrite fan_in_fmap. apply fan_in_ext.
  intros [err|results]; simpl; [reflexivity|].
  rewrite <- list_fmap_compose.
  rewrite (list_fmap_ext _ countNonEmptyLines results);
    [reflexivity|].
  intros _ c _. simpl. apply countNonEmptyLines_snoc_LF.
Qed.

(** ** The first listing: nested callbacks *)

Section FirstListingFacts.
Variable fs : filesystem.
Variable paths : list string.

Lemma counted_unique k n n' :
  counted fs paths k n -> counted fs paths k n' -> n = n'.
Proof.
  intros (p & c & Hp & Hc & <-) (p' & c' & Hp' & Hc' & <-). congruence.
Qed.

Lemma tally_of_initial r : tally_of fs paths [] (FirstListing.Tally 0 Null r).
Proof.
  split; [simpl; lia|]. split; [|reflexivity].
  intros k n Hk. inversion Hk.
Qed.

(** One more successful read keeps the shared variables in step. *)
Lemma tally_of_step settled st k p c :
  tally_of fs paths settled st ->
  paths !! k = Some p -> readFile fs p = inr c ->
  tally_of fs paths (settled ++ [k]) (FirstListing.record_count p (countLoop c) st).
Proof.
  intros (Hpos & Hbound & Hname) Hp Hc.
  assert (counted fs paths k (countNonEmptyLines c)) as Hk by (exists p, c; done).
  unfold FirstListing.record_count. rewrite countLoop_pipeline.
  destruct (Z.gtb_spec (countNonEmptyLines c) (FirstListing.maxLines st)) as [Hgt|Hle];
    unfold tally_of; simpl.
  - split; [lia|]. split.
    + intros k' n' Hin Hk'. apply elem_of_app in Hin as [Hin|Hin].
      * specialize (Hbound k' n' Hin Hk'). lia.
      * apply list_elem_of_singleton in Hin as ->.
        rewrite (counted_unique _ _ _ Hk' Hk). lia.
    + split; [lia|]. exists settled, k, []. repeat split; try done.
      intros j n Hj Hn. specialize (Hbound j n Hj Hn). lia.
  - split; [lia|]. split.
    + intros k' n' Hin Hk'. apply elem_of_app in Hin as [Hin|Hin].
      * by apply (Hbound k').
      * apply list_elem_of_singleton in Hin as ->.
        rewrite (counted_unique _ _ _ Hk' Hk). lia.
    + destruct (FirstListing.maxFilename st) as [| |q]; [exact Hname|exact Hname|].
      destruct Hname as (Hq & pre & k0 & post & -> & Hk0 & Hcount & Hfirst).
      split; [exact Hq|]. exists pre, k0, (post ++ [k]).
      repeat split; try done. by rewrite <- app_assoc.
Qed.

Lemma settle_cons_ok (callback : error + result -> log) k later st p c :
  paths !! k = Some p -> readFile fs p = inr c ->
  FirstListing.settle fs callback paths (k :: later) st =
  (if (FirstListing.remaining (FirstListing.record_count p (countLoop c) st) =? 0)%Z
   then callback (inr (FirstListing.maxFilename
                         (FirstListing.record_count p (countLoop c) st)))
   else []) ++
  FirstListing.settle fs callback paths later
    (FirstListing.record_count p (countLoop c) st).
Proof.
  intros Hp Hc. simpl. rewrite Hp. unfold FirstListing.on_read. rewrite Hc.
  reflexivity.
Qed.

Lemma settle_cons_fail (callback : error + result -> log) k later st p err :
  paths !! k = Some p -> readFile fs p = inl err ->
  FirstListing.settle fs callback paths (k :: later) st =
  callback (inl err) ++ FirstListing.settle fs callback paths later st.
Proof.
  intros Hp Hc. simpl. rewrite Hp. unfold FirstListing.on_read. rewrite Hc.
  reflexivity.
Qed.

Lemma settle_cons_none (callback : error + result -> log) k later st :
  paths !! k = None ->
  FirstListing.settle fs callback paths (k :: later) st =
  FirstListing.settle fs callback paths later st.
Proof. intros Hp. simpl. rewrite Hp. reflexivity. Qed.

Lemma remaining_record_count p n st :
  FirstListing.remaining (FirstListing.record_count p n st) =
  FirstListing.remaining st - 1.
Proof.
  unfold FirstListing.record_count.
  destruct (n >? FirstListing.maxLines st)%Z; reflexivity.
Qed.

(** When the reads that are left all succeed and [remaining] counts
    them, the callback fires once, after the last of them, with
    [maxFilename]. *)
Lemma settle_all_succeed (callback : error + result -> log) order settled st :
  order <> [] ->
  (forall k, k ∈ order -> read_ok fs paths k = true) ->
  FirstListing.remaining st = Z.of_nat (length order) ->
  tally_of fs paths settled st ->
  exists st',
    tally_of fs paths (settled ++ order) st'
    /\ FirstListing.settle fs callback paths order st =
       callback (inr (FirstListing.maxFilename st')).
Proof.
  revert settled st. induction order as [|k later IH]; intros settled st Hne Hok Hrem Hinv;
    [congruence|].
  pose proof (Hok k (list_elem_of_here _ _)) as Hk. unfold read_ok in Hk.
  destruct (paths !! k) as [p|] eqn:Hp; [|discriminate].
  destruct (readFile fs p) as [err|c] eqn:Hc; [discriminate|].
  rewrite (settle_cons_ok callback k later st p c Hp Hc).
  pose proof (tally_of_step settled st k p c Hinv Hp Hc) as Hinv'.
  pose proof (remaining_record_count p (countLoop c) st) as Hrem1.
  rewrite Hrem in Hrem1.
  destruct later as [|k' later'].
  - exists (FirstListing.record_count p (countLoop c) st).
    split; [exact Hinv'|].
    rewrite Hrem1. simpl. by rewrite app_nil_r.
  - destruct (IH (settled ++ [k]) (FirstListing.record_count p (countLoop c) st))
      as (st' & Hinv'' & Heq).
    + discriminate.
    + intros j Hj. apply Hok. by apply list_elem_of_further.
    + rewrite Hrem1. simpl length. lia.
    + exact Hinv'.
    + exists st'. rewrite <- app_assoc in Hinv''. split; [exact Hinv''|].
      rewrite Heq.
      replace (FirstListing.remaining
                 (FirstListing.record_count p (countLoop c) st) =? 0)%Z
        with false; [reflexivity|].
      symmetry. apply Z.eqb_neq. rewrite Hrem1. simpl length. lia.
Qed.

End FirstListingFacts.

Lemma loaded_counted fs paths contents j c :
  loaded fs paths contents -> contents !! j = Some c ->
  counted fs paths j (countNonEmptyLines c).
Proof.
  intros Hloaded Hj.
  destruct (Forall2_lookup_r _ _ _ _ _ Hloaded Hj) as (p & Hp & Hc).
  by exists p, c.
Qed.

Lemma settle_order_elem n order k :
  settle_order n order -> (k < n)%nat -> k ∈ order.
Proof.
  unfold settle_order. intros -> Hk. apply elem_of_seq. lia.
Qed.

Lemma settle_order_bound n order k :
  settle_order n order -> k ∈ order -> (k < n)%nat.
Proof.
  unfold settle_order. intros -> Hk. apply elem_of_seq in Hk. lia.
Qed.

Lemma countNonEmptyLines_nonneg c : 0 <= countNonEmptyLines c.
Proof. unfold countNonEmptyLines. lia. Qed.

(** The outcome of the first listing when [dir] is bound and every
    read succeeds. *)
Lemma first_listing_outcome (fs : filesystem) (path_join : string -> string -> string)
    (d : string) (order : list nat) (directory : string)
    (names contents : list string) (callback : error + result -> log) :
  readdir fs directory = inr names ->
  names <> [] ->
  settle_order (length names) order ->
  loaded fs (path_join d <$> names) contents ->
  exists r,
    FirstListing.findMaxFileInDirectory fs path_join (Some d) order directory callback =
      FirstListing.Run
        (Readdir directory :: (ReadFile <$> (path_join d <$> names)) ++
         callback (inr r))
        None
    /\ ((r = Null /\ forall c, c ∈ contents -> countNonEmptyLines c = 0)
        \/ (exists pre k post p c,
              order = pre ++ k :: post
              /\ (path_join d <$> names) !! k = Some p
              /\ contents !! k = Some c
              /\ r = Path p
              /\ 0 < countNonEmptyLines c
              /\ (forall c', c' ∈ contents ->
                    countNonEmptyLines c' <= countNonEmptyLines c)
              /\ (forall j c', j ∈ pre -> contents !! j = Some c' ->
                    countNonEmptyLines c' < countNonEmptyLines c))).
Proof.
  intros Hdir Hne Horder Hloaded.
  set (paths := path_join d <$> names) in *.
  assert (length paths = length names) as Hlen by apply length_fmap.
  assert (length order = length names) as Hlen'.
  { unfold settle_order in Horder. rewrite Horder. apply length_seq. }
  destruct (settle_all_succeed fs paths callback order []
              (FirstListing.Tally 0 Null (Z.of_nat (length names))))
    as (st' & Hinv & Heq).
  - intros ->. destruct names; [congruence|discriminate].
  - intros k Hk. apply (settle_order_bound _ _ _ Horder) in Hk.
    unfold read_ok.
    destruct (lookup_lt_is_Some_2 paths k) as [p Hp]; [lia|]. rewrite Hp.
    destruct (Forall2_lookup_l _ _ _ _ _ Hloaded Hp) as (c & _ & ->). reflexivity.
  - simpl. by rewrite Hlen'.
  - apply tally_of_initial.
  - simpl in Hinv. exists (FirstListing.maxFilename st'). split.
    + unfold FirstListing.findMaxFileInDirectory. rewrite Hdir.
      fold paths. rewrite Heq. reflexivity.
    + destruct Hinv as (Hpos & Hbound & Hname).
      assert (forall j c, contents !! j = Some c -> j ∈ order) as Hsettled.
      { intros j c Hj. apply (settle_order_elem _ _ _ Horder).
        apply lookup_lt_Some in Hj.
        rewrite (loaded_length fs _ _ Hloaded) in Hj. lia. }
      destruct (FirstListing.maxFilename st') as [| |q]; [|destruct Hname|].
      * left. split; [reflexivity|].
        intros c Hc. apply list_elem_of_lookup in Hc as [j Hj].
        pose proof (Hbound j _ (Hsettled j c Hj) (loaded_counted _ _ _ _ _ Hloaded Hj)).
        pose proof (countNonEmptyLines_nonneg c). lia.
      * right. destruct Hname as (Hq & pre & k & post & -> & Hk & Hcount & Hfirst).
        destruct (Forall2_lookup_l _ _ _ _ _ Hloaded Hk) as (c & Hc & Hread).
        pose proof (counted_unique _ _ _ _ _ Hcount
                      (loaded_counted _ _ _ _ _ Hloaded Hc)) as Hmax.
        exists pre, k, post, q, c. rewrite <- Hmax.
        repeat split; try done.
        -- intros c' Hc'. apply list_elem_of_lookup in Hc' as [j Hj].
           exact (Hbound j _ (Hsettled j c' Hj) (loaded_counted _ _ _ _ _ Hloaded Hj)).
        -- intros j c' Hj Hc'.
           exact (Hfirst j _ Hj (loaded_counted _ _ _ _ _ Hloaded Hc')).
Qed.

(** X9. The first listing, with [dir] bound and every read succeeding:
    the callback fires once, after all reads, with [null] when no file
    has a non-empty line, and otherwise with the path of a file with the
    most non-empty lines, the one among those whose read settled first. *)
Theorem first_listing_running_max (fs : filesystem)
    (path_join : string -> string -> string)
    (d : string) (order : list nat) (directory : string)
    (names contents : list string) (callback : error + result -> log) :
  readdir fs directory = inr names ->
  names <> [] ->
  settle_order (length names) order ->
  loaded fs (path_join d <$> names) contents ->
  exists r,
    FirstListing.findMaxFileInDirectory fs path_join (Some d) order directory callback =
      FirstListing.Run
        (Readdir directory :: (ReadFile <$> (path_join d <$> names)) ++
         callback (inr r))
        None
    /\ ((r = Null /\ forall c, c ∈ contents -> countNonEmptyLines c = 0)
        \/ (exists pre k post p c,
              order = pre ++ k :: post
              /\ (path_join d <$> names) !! k = Some p
              /\ contents !! k = Some c
              /\ r = Path p
              /\ 0 < countNonEmptyLines c
              /\ (forall c', c' ∈ contents ->
                    countNonEmptyLines c' <= countNonEmptyLines c)
              /\ (forall j c', j ∈ pre -> contents !! j = Some c' ->
                    countNonEmptyLines c' < countNonEmptyLines c))).
Proof. apply first_listing_outcome. Qed.

(** X10. The refactoring keeps the answer when one file has strictly
    more non-empty lines than every other, and at least one: with [dir]
    bound to the directory, the first listing and
    [findMaxFileInDirectory] both call back with the path of that file,
    whatever the orders in which their reads settle. *)
Theorem first_listing_agrees_on_unique_max (fs : filesystem)
    (path_join : string -> string -> string) (order order' : list nat)
    (directory : string) (names contents : list string) (i : nat) (c : string)
    (callback : error + result -> log) :
  readdir fs directory = inr names ->
  settle_order (length names) order ->
  settle_order (length names) order' ->
  loaded fs (path_join directory <$> names) contents ->
  contents !! i = Some c ->
  0 < countNonEmptyLines c ->
  (forall j c', j <> i -> contents !! j = Some c' ->
     countNonEmptyLines c' < countNonEmptyLines c) ->
  exists p,
    (path_join directory <$> names) !! i = Some p
    /\ FirstListing.findMaxFileInDirectory fs path_join (Some directory) order
         directory callback =
       FirstListing.Run
         (Readdir directory :: (ReadFile <$> (path_join directory <$> names)) ++
          callback (inr (Path p)))
         None
    /\ findMaxFileInDirectory fs path_join order' directory callback =
       Readdir directory :: LoadFiles (path_join directory <$> names) ::
       (ReadFile <$> (path_join directory <$> names)) ++
       IndexOfMax (countNonEmptyLines <$> contents) :: callback (inr (Path p)).
Proof.
  intros Hdir Horder Horder' Hloaded Hi Hc Hunique.
  pose proof (loaded_length fs _ _ Hloaded) as Hlen. rewrite length_fmap in Hlen.
  assert (names <> []) as Hne.
  { intros ->. apply lookup_lt_Some in Hi. simpl in Hlen. lia. }
  assert (c ∈ contents) as Hin by (eapply list_elem_of_lookup_2, Hi).
  destruct (lookup_lt_is_Some_2 (path_join directory <$> names) i) as [p Hp].
  { rewrite length_fmap, <- Hlen. eapply lookup_lt_Some, Hi. }
  exists p. split; [exact Hp|]. split.
  - destruct (first_listing_outcome fs path_join directory order directory names
                contents callback Hdir Hne Horder Hloaded)
      as (r & -> & [[-> Hzero]|Hmax]).
    + specialize (Hzero c Hin). lia.
    + destruct Hmax as (pre & k & post & q & ck & _ & Hq & Hk & -> & _ & Hge & _).
      destruct (decide (k = i)) as [->|Hki]; [congruence|].
      specialize (Hunique k ck Hki Hk). specialize (Hge c Hin). lia.
  - destruct (findMaxFile_winner fs order' (path_join directory <$> names) contents
                callback)
      as (i' & p' & Hi' & Hp' & Heq).
    + intros Hnil. apply fmap_nil_inv in Hnil. congruence.
    + by rewrite length_fmap.
    + exact Hloaded.
    + destruct (indexOfMax_nonempty (countNonEmptyLines <$> contents))
        as (i'' & m & Hi'' & Hm & Hge & _).
      { intros Hnil. apply fmap_nil_inv in Hnil. subst contents. inversion Hin. }
      assert (i'' = i') as -> by congruence.
      rewrite list_lookup_fmap in Hm.
      destruct (contents !! i') as [c'|] eqn:Hc'; simpl in Hm; [|discriminate].
      injection Hm as <-.
      assert (i' = i) as ->.
      { destruct (decide (i' = i)) as [|Hne']; [assumption|].
        specialize (Hunique i' c' Hne' Hc').
        specialize (Hge i (countNonEmptyLines c)).
        rewrite list_lookup_fmap, Hi in Hge. specialize (Hge eq_refl). lia. }
      assert (p' = p) as -> by congruence.
      unfold findMaxFileInDirectory. rewrite Hdir. f_equal. exact Heq.
Qed.

(** X11. The refactoring changes the answer on a directory whose files
    have no non-empty line at all: the first listing (with [dir] bound to
    the directory) calls back with [null], [findMaxFileInDirectory] with
    the path of the first name listed. *)
Theorem first_listing_differs_on_blank_files (fs : filesystem)
    (path_join : string -> string -> string) (order order' : list nat)
    (directory : string) (name : string) (names contents : list string)
    (callback : error + result -> log) :
  readdir fs directory = inr (name :: names) ->
  settle_order (length (name :: names)) order ->
  settle_order (length (name :: names)) order' ->
  loaded fs (path_join directory <$> name :: names) contents ->
  (forall c, c ∈ contents -> countNonEmptyLines c = 0) ->
  FirstListing.findMaxFileInDirectory fs path_join (Some directory) order
      directory callback =
    FirstListing.Run
      (Readdir directory :: (ReadFile <$> (path_join directory <$> name :: names)) ++
       callback (inr Null))
      None
  /\ findMaxFileInDirectory fs path_join order' directory callback =
     Readdir directory :: LoadFiles (path_join directory <$> name :: names) ::
     (ReadFile <$> (path_join directory <$> name :: names)) ++
     IndexOfMax (countNonEmptyLines <$> contents) ::
     callback (inr (Path (path_join directory name))).
Proof.
  intros Hdir Horder Horder' Hloaded' Hzero. split.
  - destruct (first_listing_outcome fs path_join directory order directory
                (name :: names) contents callback Hdir)
      as (r & -> & [[-> _]|Hmax]);
      [discriminate|exact Horder|exact Hloaded'|reflexivity|].
    destruct Hmax as (pre & k & post & q & ck & _ & _ & Hk & _ & Hpos & _).
    rewrite (Hzero ck) in Hpos; [lia|]. eapply list_elem_of_lookup_2, Hk.
  - destruct (findMaxFile_winner fs order' (path_join directory <$> name :: names)
                contents callback)
      as (i & p & Hi & Hp & Heq); [discriminate|by rewrite length_fmap|exact Hloaded'|].
    destruct (indexOfMax_nonempty (countNonEmptyLines <$> contents))
      as (i' & m & Hi' & Hm & _ & Hfirst).
    { intros Hnil. apply fmap_nil_inv in Hnil. subst contents.
      apply loaded_length in Hloaded'. discriminate. }
    assert (i' = i) as -> by congruence.
    assert (forall j n, (countNonEmptyLines <$> contents) !! j = Some n -> n = 0)
      as Hall.
    { intros j n Hj. rewrite list_lookup_fmap in Hj.
      destruct (contents !! j) as [cj|] eqn:Hcj; simpl in Hj; [|discriminate].
      injection Hj as <-. apply Hzero. eapply list_elem_of_lookup_2, Hcj. }
    assert (i = 0)%nat as ->.
    { rewrite (Hall _ _ Hm) in Hfirst.
      destruct contents as [|c0 rest];
        [apply loaded_length in Hloaded'; discriminate|].
      assert (i <= 0)%nat; [|lia].
      apply Hfirst. simpl. f_equal. apply (Hall 0%nat). reflexivity. }
    simpl in Hp. injection Hp as <-.
    unfold findMaxFileInDirectory. rewrite Hdir. f_equal. exact Heq.
Qed.

Lemma settle_no_paths (fs : filesystem) (callback : error + result -> log) order st :
  FirstListing.settle fs callback [] order st = [].
Proof. induction order as [|k later IH]; [reflexivity|exact IH]. Qed.

Lemma failed_reads_cons_fail fs paths k later p err :
  paths !! k = Some p -> readFile fs p = inl err ->
  failed_reads fs paths (k :: later) = err :: failed_reads fs paths later.
Proof. intros Hp Hc. unfold failed_reads. simpl. by rewrite Hp, Hc. Qed.

Lemma failed_reads_cons_ok fs paths k later p c :
  paths !! k = Some p -> readFile fs p = inr c ->
  failed_reads fs paths (k :: later) = failed_reads fs paths later.
Proof. intros Hp Hc. unfold failed_reads. simpl. by rewrite Hp, Hc. Qed.

Lemma failed_reads_cons_none fs paths k later :
  paths !! k = None ->
  failed_reads fs paths (k :: later) = failed_reads fs paths later.
Proof. intros Hp. unfold failed_reads. simpl. by rewrite Hp. Qed.

(** While more reads are awaited than can still succeed, the only
    callbacks are those of the reads that fail. *)
Lemma settle_only_failures (fs : filesystem) (paths : list string) order st :
  Z.of_nat (length (filter (fun k => read_ok fs paths k = true) order))
    < FirstListing.remaining st ->
  FirstListing.settle fs report paths order st =
  (fun err => Callback (inl err)) <$> failed_reads fs paths order.
Proof.
  revert st. induction order as [|k later IH]; intros st Hrem; [reflexivity|].
  destruct (paths !! k) as [p|] eqn:Hp.
  - destruct (readFile fs p) as [err|c] eqn:Hc.
    + rewrite (settle_cons_fail fs paths report k later st p err Hp Hc).
      rewrite (failed_reads_cons_fail fs paths k later p err Hp Hc).
      rewrite filter_cons_False in Hrem by (unfold read_ok; rewrite Hp, Hc; discriminate).
      rewrite (IH st Hrem). reflexivity.
    + rewrite (settle_cons_ok fs paths report k later st p c Hp Hc).
      rewrite (failed_reads_cons_ok fs paths k later p c Hp Hc).
      rewrite filter_cons_True in Hrem by (unfold read_ok; by rewrite Hp, Hc).
      simpl length in Hrem.
      pose proof (remaining_record_count p (countLoop c) st) as Hrem'.
      replace (FirstListing.remaining
                 (FirstListing.record_count p (countLoop c) st) =? 0)%Z
        with false by (symmetry; apply Z.eqb_neq; lia).
      rewrite IH by lia. reflexivity.
  - rewrite (settle_cons_none fs paths report k later st Hp).
    rewrite (failed_reads_cons_none fs paths k later Hp).
    rewrite filter_cons_False in Hrem by (unfold read_ok; rewrite Hp; discriminate).
    exact (IH st Hrem).
Qed.

(** X12. The first listing when reads fail (with [dir] bound): every
    failing read calls back with its own error, in the order in which the
    reads settle, so the callback fires as many times as reads fail; it
    never fires with a result. *)
Theorem first_listing_failures (fs : filesystem)
    (path_join : string -> string -> string) (d : string) (order : list nat)
    (directory : string) (names : list string) :
  readdir fs directory = inr names ->
  settle_order (length names) order ->
  Exists (fun p => exists err, readFile fs p = inl err) (path_join d <$> names) ->
  FirstListing.findMaxFileInDirectory fs path_join (Some d) order directory report =
    FirstListing.Run
      (Readdir directory :: (ReadFile <$> (path_join d <$> names)) ++
       ((fun err => Callback (inl err))
          <$> failed_reads fs (path_join d <$> names) order))
      None
  /\ failed_reads fs (path_join d <$> names) order <> []
  /\ (forall v,
        Callback (inr v) ∉
        FirstListing.events
          (FirstListing.findMaxFileInDirectory fs path_join (Some d) order
             directory report)).
Proof.
  intros Hdir Horder Hex.
  set (paths := path_join d <$> names) in *.
  apply Exists_exists in Hex as (p & Hin & err & Herr).
  apply list_elem_of_lookup in Hin as [k Hk].
  assert (k < length names)%nat as Hlt.
  { apply lookup_lt_Some in Hk. subst paths. by rewrite length_fmap in Hk. }
  assert (FirstListing.findMaxFileInDirectory fs path_join (Some d) order directory
            report =
          FirstListing.Run
            (Readdir directory :: (ReadFile <$> paths) ++
             ((fun err => Callback (inl err)) <$> failed_reads fs paths order))
            None) as Hrun.
  { unfold FirstListing.findMaxFileInDirectory. rewrite Hdir. fold paths.
    rewrite settle_only_failures; [reflexivity|]. simpl.
    unfold settle_order in Horder. rewrite Horder.
    pose proof (length_filter_lt (fun k => read_ok fs paths k = true)
                  (seq 0 (length names)) k) as Hfilter.
    rewrite length_seq in Hfilter.
    assert (length (filter (fun k => read_ok fs paths k = true) (seq 0 (length names)))
            < length names)%nat; [|lia].
    apply Hfilter; [apply elem_of_seq; lia|].
    unfold read_ok. rewrite Hk, Herr. discriminate. }
  split; [exact Hrun|]. split.
  - intros Hnil.
    assert (err ∈ failed_reads fs paths order) as Herr'.
    { unfold failed_reads. apply list_elem_of_omap. exists k.
      split; [by eapply settle_order_elem|]. by rewrite Hk, Herr. }
    rewrite Hnil in Herr'. inversion Herr'.
  - intros v Hv. rewrite Hrun in Hv. simpl in Hv.
    apply elem_of_cons in Hv as [?|Hv]; [discriminate|].
    apply elem_of_app in Hv as [Hv|Hv].
    + apply list_elem_of_fmap in Hv as (? & ? & _). discriminate.
    + apply list_elem_of_fmap in Hv as (? & ? & _). discriminate.
Qed.

(** X13. Two ways in which the first listing never calls back.  On a
    directory without entries nothing is read and nothing is compared to
    zero, whatever [dir] is, where [findMaxFileInDirectory] calls back
    with [null].  And when nothing binds [dir], a directory with entries
    ends the run with a [ReferenceError] before any read is issued. *)
Theorem first_listing_silent_runs (fs : filesystem)
    (path_join : string -> string -> string) (order : list nat) (directory : string)
    (callback : error + result -> log) :
  (readdir fs directory = inr [] ->
     (forall dir,
        FirstListing.findMaxFileInDirectory fs path_join dir order directory callback =
        FirstListing.Run [Readdir directory] None)
     /\ findMaxFileInDirectory fs path_join order directory callback =
        Readdir directory :: callback (inr Null))
  /\ (forall names,
       readdir fs directory = inr names -> names <> [] ->
       FirstListing.findMaxFileInDirectory fs path_join None order directory callback =
       FirstListing.Run [Readdir directory] (Some "dir")).
Proof.
  split.
  - intros Hdir. split.
    + intros [d|]; unfold FirstListing.findMaxFileInDirectory; rewrite Hdir;
        [|reflexivity].
      simpl. by rewrite settle_no_paths.
    + unfold findMaxFileInDirectory. rewrite Hdir. reflexivity.
  - intros names Hdir Hne. unfold FirstListing.findMaxFileInDirectory.
    rewrite Hdir. destruct names; [congruence|reflexivity].
Qed.

(** ** The further statements at work on the sample directories *)

(** The first listing on [docs/]: the read of [c.txt] settles before
    that of [b.txt], and [c.txt] is the answer. *)
Example first_listing_docs :
  FirstListing.findMaxFileInDirectory sample_fs posix_join (Some "docs")
    [2; 0; 1]%nat "docs" report =
  FirstListing.Run
    [ Readdir "docs";
      ReadFile "docs/a.txt"; ReadFile "docs/b.txt"; ReadFile "docs/c.txt";
      Callback (inr (Path "docs/c.txt")) ]
    None.
Proof. reflexivity. Qed.

Example first_listing_gone :
  FirstListing.findMaxFileInDirectory sample_fs posix_join (Some "gone")
    [1; 0]%nat "gone" report =
  FirstListing.Run
    [ Readdir "gone"; ReadFile "gone/a.txt"; ReadFile "gone/lost.txt";
      Callback (inl (ENOENT "open" "gone/lost.txt")) ]
    None.
Proof. reflexivity. Qed.

Lemma settle_order_two : settle_order 2 [1; 0]%nat.
Proof. exact (Permutation_cons_append [0]%nat 1%nat). Defined.

Lemma settle_order_two_id : settle_order 2 [0; 1]%nat.
Proof. unfold settle_order. reflexivity. Defined.

Lemma loaded_notes :
  loaded sample_fs (posix_join "notes" <$> ["x.txt"; "y.txt"]) notes_contents.
Proof. repeat constructor. Defined.

Lemma countNonEmptyLines_zero_iff_witness :
  countNonEmptyLines (LF ++ LF) = 0.
Proof.
  apply (proj2 (countNonEmptyLines_zero_iff (LF ++ LF))).
  intros [|[|n]] c; simpl; intros [=]; subst; reflexivity.
Defined.

Lemma findMaxFile_most_lines_witness :
  exists i p c,
    docs_files !! i = Some p
    /\ docs_contents !! i = Some c
    /\ findMaxFile sample_fs [2; 0; 1]%nat docs_files report =
       LoadFiles docs_files :: (ReadFile <$> docs_files) ++
       [IndexOfMax (countNonEmptyLines <$> docs_contents); Callback (inr (Path p))]
    /\ (forall j c', docs_contents !! j = Some c' ->
          countNonEmptyLines c' <= countNonEmptyLines c)
    /\ (forall j c', (j < i)%nat -> docs_contents !! j = Some c' ->
          countNonEmptyLines c' < countNonEmptyLines c).
Proof.
  apply (findMaxFile_most_lines sample_fs [2; 0; 1]%nat docs_files docs_contents).
  - discriminate.
  - exact settle_order_docs.
  - exact loaded_docs.
Defined.

Lemma findMaxFileInDirectory_joined_path_witness :
  exists i name,
    ["a.txt"; "b.txt"; "c.txt"] !! i = Some name
    /\ indexOfMax (countNonEmptyLines <$> docs_contents) = Some i
    /\ findMaxFileInDirectory sample_fs posix_join [2; 0; 1]%nat "docs" report =
       Readdir "docs" :: LoadFiles docs_files :: (ReadFile <$> docs_files) ++
       IndexOfMax (countNonEmptyLines <$> docs_contents) ::
       report (inr (Path (posix_join "docs" name))).
Proof.
  apply (findMaxFileInDirectory_joined_path sample_fs posix_join [2; 0; 1]%nat "docs"
           ["a.txt"; "b.txt"; "c.txt"] docs_contents report).
  - reflexivity.
  - discriminate.
  - exact settle_order_docs.
  - exact loaded_docs.
Defined.

Lemma first_listing_running_max_witness :
  exists r,
    FirstListing.findMaxFileInDirectory sample_fs posix_join (Some "docs")
      [2; 0; 1]%nat "docs" report =
      FirstListing.Run
        (Readdir "docs" :: (ReadFile <$> docs_files) ++ report (inr r)) None
    /\ ((r = Null /\ forall c, c ∈ docs_contents -> countNonEmptyLines c = 0)
        \/ (exists pre k post p c,
              [2; 0; 1]%nat = pre ++ k :: post
              /\ docs_files !! k = Some p
              /\ docs_contents !! k = Some c
              /\ r = Path p
              /\ 0 < countNonEmptyLines c
              /\ (forall c', c' ∈ docs_contents ->
                    countNonEmptyLines c' <= countNonEmptyLines c)
              /\ (forall j c', j ∈ pre -> docs_contents !! j = Some c' ->
                    countNonEmptyLines c' < countNonEmptyLines c))).
Proof.
  apply (first_listing_running_max sample_fs posix_join "docs" [2; 0; 1]%nat "docs"
           ["a.txt"; "b.txt"; "c.txt"] docs_contents report).
  - reflexivity.
  - discriminate.
  - exact settle_order_docs.
  - exact loaded_docs.
Defined.

Lemma first_listing_agrees_on_unique_max_witness :
  exists p,
    (posix_join "notes" <$> ["x.txt"; "y.txt"]) !! 0%nat = Some p
    /\ FirstListing.findMaxFileInDirectory sample_fs posix_join (Some "notes")
         [1; 0]%nat "notes" report =
       FirstListing.Run
         (Readdir "notes" :: (ReadFile <$> (posix_join "notes" <$> ["x.txt"; "y.txt"])) ++
          report (inr (Path p)))
         None
    /\ findMaxFileInDirectory sample_fs posix_join [0; 1]%nat "notes" report =
       Readdir "notes" :: LoadFiles (posix_join "notes" <$> ["x.txt"; "y.txt"]) ::
       (ReadFile <$> (posix_join "notes" <$> ["x.txt"; "y.txt"])) ++
       IndexOfMax (countNonEmptyLines <$> notes_contents) :: report (inr (Path p)).
Proof.
  apply (first_listing_agrees_on_unique_max sample_fs posix_join [1; 0]%nat [0; 1]%nat
           "notes" ["x.txt"; "y.txt"] notes_contents 0%nat
           ("1" ++ LF ++ "2" ++ LF ++ "3")%string report).
  - reflexivity.
  - exact settle_order_two.
  - exact settle_order_two_id.
  - exact loaded_notes.
  - reflexivity.
  - reflexivity.
  - intros [|[|j]] c' Hj Hc'; [congruence| |discriminate].
    injection Hc' as <-. reflexivity.
Defined.

Lemma first_listing_differs_on_blank_files_witness :
  FirstListing.findMaxFileInDirectory blank_fs posix_join (Some "any") [1; 0]%nat
    "any" report =
    FirstListing.Run
      [Readdir "any"; ReadFile "any/p"; ReadFile "any/q"; Callback (inr Null)] None
  /\ findMaxFileInDirectory blank_fs posix_join [1; 0]%nat "any" report =
     [ Readdir "any"; LoadFiles ["any/p"; "any/q"];
       ReadFile "any/p"; ReadFile "any/q";
       IndexOfMax [0; 0]; Callback (inr (Path "any/p")) ].
Proof.
  apply (first_listing_differs_on_blank_files blank_fs posix_join [1; 0]%nat [1; 0]%nat
           "any" "p" ["q"] [(LF ++ LF)%string; (LF ++ LF)%string] report).
  - reflexivity.
  - exact settle_order_two.
  - exact settle_order_two.
  - repeat constructor.
  - intros c Hc. apply elem_of_cons in Hc as [->|Hc]; [reflexivity|].
    apply list_elem_of_singleton in Hc as ->. reflexivity.
Defined.

Lemma first_listing_failures_witness :
  FirstListing.findMaxFileInDirectory sample_fs posix_join (Some "gone") [1; 0]%nat
    "gone" report =
    FirstListing.Run
      (Readdir "gone" :: (ReadFile <$> gone_files) ++
       ((fun err => Callback (inl err)) <$> failed_reads sample_fs gone_files [1; 0]%nat))
      None
  /\ failed_reads sample_fs gone_files [1; 0]%nat <> []
  /\ (forall v,
        Callback (inr v) ∉
        FirstListing.events
          (FirstListing.findMaxFileInDirectory sample_fs posix_join (Some "gone")
             [1; 0]%nat "gone" report)).
Proof.
  apply (first_listing_failures sample_fs posix_join "gone" [1; 0]%nat "gone"
           ["a.txt"; "lost.txt"]).
  - reflexivity.
  - exact settle_order_two.
  - apply Exists_cons_tl, Exists_cons_hd. eexists. reflexivity.
Defined.

Lemma first_listing_silent_runs_witness :
  FirstListing.findMaxFileInDirectory sample_fs posix_join (Some "empty") [] "empty"
    report = FirstListing.Run [Readdir "empty"] None
  /\ findMaxFileInDirectory sample_fs posix_join [] "empty" report =
     [Readdir "empty"; Callback (inr Null)]
  /\ FirstListing.findMaxFileInDirectory sample_fs posix_join None [2; 0; 1]%nat "docs"
       report = FirstListing.Run [Readdir "docs"] (Some "dir").
Proof.
  destruct (first_listing_silent_runs sample_fs posix_join [] "empty" report)
    as [Hempty _].
  destruct (Hempty eq_refl) as [Hfirst Hlater].
  destruct (first_listing_silent_runs sample_fs posix_join [2; 0; 1]%nat "docs" report)
    as [_ Hunbound].
  split; [exact (Hfirst (Some "empty"))|]. split; [exact Hlater|].
  apply (Hunbound ["a.txt"; "b.txt"; "c.txt"]); [reflexivity|discriminate].
Defined.
